(** * conn2res.reservoir: the memristive reservoir, embedded and verified

    Shallow embedding of [conn2res/reservoir.py]: the connectivity
    normalisation ([setW]), the property fields ([init_property]), the
    Kirchhoff solver ([solveV_I]), the edge voltages ([getV]), the
    fixed-point loop ([iterate]) and the metastable-switch network
    ([MSSNetwork]) with the module-level helpers [mask],
    [check_symmetric], [make_symmetric] and [check_square].

    Conventions of the embedding:
    - a Python call either returns or raises: [result A];
    - a 2-D numpy array is the list of its rows; its shape is read off the
      list ([nrows], [ncols]); numpy's broadcasting rules are written out;
    - floating-point numbers are idealised as the elements of a real field
      [R] (exact arithmetic; [x / 0] is the field's [0] where numpy yields
      [inf] or [nan]); integer arrays hold [int];
    - node indices are natural numbers (Python's negative indices are not
      used by the code);
    - the random draws of [numpy.random] and [numpy.exp] are inputs. *)

From HB Require Import structures.
From mathcomp Require Import boot order algebra.
From mathcomp Require Import archimedean ring lra.
From Stdlib Require Import String Lia.

Set Implicit Arguments.
Unset Strict Implicit.
Unset Printing Implicit Defensive.

Import GRing.Theory Num.Theory Order.Theory.
Local Open Scope ring_scope.

(** ** Python results and exceptions *)

Module Py.

Inductive exn : Type :=
  | TypeError
  | ValueError
  | IndexError
  | KeyError
  | AttributeError
  | LinAlgError
  | MaskError.

Inductive result (A : Type) : Type :=
  | Ok of A
  | Raise of exn.

Arguments Ok {A} _.
Arguments Raise {A} _.

Definition bind {A B : Type} (c : result A) (k : A -> result B) : result B :=
  match c with
  | Ok a => k a
  | Raise e => Raise e
  end.

Definition returns {A : Type} (c : result A) : bool :=
  if c is Ok _ then true else false.

End Py.

Export Py.

Notation "x <-- c ;; k" := (Py.bind c (fun x => k))
  (at level 100, c at next level, right associativity).

(** ** The fragment of numpy the module uses *)

Module Np.

Section Arrays.

Variable T : Type.

Definition vec := seq T.
Definition mat := seq (seq T).

Definition nrows (a : mat) : nat := size a.
Definition ncols (a : mat) : nat := size (head [::] a).

(** [a.shape == (m, n)] *)
Definition has_shape (m n : nat) (a : mat) : bool :=
  (size a == m) && all (fun r => size r == n) a.

Definition get (d : T) (a : mat) (i j : nat) : T := nth d (nth [::] a i) j.

Definition mkmat (m n : nat) (f : nat -> nat -> T) : mat :=
  mkseq (fun i => mkseq (f i) n) m.

(** [a.T] *)
Definition transpose (d : T) (a : mat) : mat :=
  mkmat (ncols a) (nrows a) (fun i j => get d a j i).

(** [np.fill_diagonal(a, v)] for a scalar [v]: writes [a[i, i]] for every
    [i] below both dimensions, also when [a] is not square. *)
Definition fill_diagonal (d : T) (a : mat) (v : T) : mat :=
  mkmat (nrows a) (ncols a) (fun i j => if i == j then v else get d a i j).

(** [np.triu_indices_from(a, k=1)]: the positions strictly above the
    diagonal, row by row. *)
Definition triu_indices (m n : nat) : seq (nat * nat) :=
  flatten (mkseq (fun i => [seq (i, j) | j <- iota i.+1 (n - i.+1)%N]) m).

Definition triu_indices_from (a : mat) : seq (nat * nat) :=
  triu_indices (nrows a) (ncols a).

(** [a[idx]] for a pair of index arrays: IndexError out of bounds. *)
Fixpoint take_idx (d : T) (a : mat) (idx : seq (nat * nat)) : result (seq T) :=
  match idx with
  | [::] => Ok [::]
  | (i, j) :: idx' =>
      if ((i < nrows a) && (j < ncols a))%N
      then (r <-- take_idx d a idx' ;; Ok (get d a i j :: r))
      else Raise IndexError
  end.

Definition set_at (a : mat) (i j : nat) (v : T) : mat :=
  set_nth [::] a i (set_nth v (nth [::] a i) j v).

Fixpoint put_idx (a : mat) (idx : seq (nat * nat)) (vals : seq T) : result mat :=
  match idx, vals with
  | [::], _ => Ok a
  | (i, j) :: idx', v :: vals' =>
      if ((i < nrows a) && (j < ncols a))%N
      then put_idx (set_at a i j v) idx' vals'
      else Raise IndexError
  | _ :: _, [::] => Raise ValueError
  end.

(** [a[idx] = vals]: the values must be as many as the positions (or a
    single one, which is repeated), ValueError otherwise. *)
Definition set_idx (a : mat) (idx : seq (nat * nat)) (vals : seq T) : result mat :=
  if size vals == size idx then put_idx a idx vals
  else if vals is [:: v] then put_idx a idx (nseq (size idx) v)
  else Raise ValueError.

(** Broadcasting of one dimension: equal extents, or one of them is 1. *)
Definition bdim (m1 m2 : nat) : option nat :=
  if m1 == m2 then Some m1
  else if m1 == 1%N then Some m2
  else if m2 == 1%N then Some m1
  else None.

Definition bidx (m i : nat) : nat := if m == 1%N then 0%N else i.

End Arrays.

Section Elementwise.

Variables A B C : Type.

(** An elementwise binary operation on 2-D arrays, with broadcasting;
    "operands could not be broadcast together" is a ValueError. *)
Definition broadcast2 (da : A) (db : B) (f : A -> B -> C)
    (a : mat A) (b : mat B) : result (mat C) :=
  match bdim (nrows a) (nrows b), bdim (ncols a) (ncols b) with
  | Some m, Some n =>
      Ok (mkmat m n (fun i j =>
            f (get da a (bidx (nrows a) i) (bidx (ncols a) j))
              (get db b (bidx (nrows b) i) (bidx (ncols b) j))))
  | _, _ => Raise ValueError
  end.

(** The same for 1-D arrays. *)
Definition broadcast1 (da : A) (db : B) (f : A -> B -> C)
    (a : seq A) (b : seq B) : result (seq C) :=
  if bdim (size a) (size b) is Some n
  then Ok (mkseq (fun i => f (nth da a (bidx (size a) i))
                             (nth db b (bidx (size b) i))) n)
  else Raise ValueError.

Definition map2d (f : A -> B) (a : mat A) : mat B := map (map f) a.

End Elementwise.

Section Numeric.

Variable R : realFieldType.

(** [a.astype(bool)] and [.astype(int)] *)
Definition astype_bool (a : mat R) : mat bool := map2d (fun x => x != 0) a.
Definition bool_astype_int (a : mat bool) : mat int :=
  map2d (fun b : bool => (b : nat)%:Z) a.

Definition zeros (m n : nat) : mat R := mkmat m n (fun _ _ => 0).
Definition zeros_like_int (a : mat int) : mat int :=
  mkmat (nrows a) (ncols a) (fun _ _ => 0).

(** The default relative tolerance of [np.allclose], [1e-05]. *)
Definition rtol_default : R := (10%:R ^+ 5)^-1.

(** [np.allclose(a, b, rtol, atol)] on integer arrays:
    [all(abs(a - b) <= atol + rtol * abs(b))], after broadcasting. *)
Definition isclose (rtol atol : R) (x y : int) : bool :=
  `|x - y|%:~R <= atol + rtol * `|y|%:~R.

Definition allclose (a b : mat int) (rtol atol : R) : result bool :=
  c <-- broadcast2 0 0 (isclose rtol atol) a b ;;
  Ok (all (all id) c).

(** [np.logical_or(x, y)] on 1-D integer arrays *)
Definition logical_or (x y : seq int) : result (seq bool) :=
  broadcast1 0 0 (fun u v => (u != 0) || (v != 0)) x y.

End Numeric.

Section Rings.

Variable T : nzRingType.

(** [np.tril(a, -1)] and [np.triu(a, 1)] *)
Definition tril1 (a : mat T) : mat T :=
  mkmat (nrows a) (ncols a) (fun i j => if (j < i)%N then get 0 a i j else 0).
Definition triu1 (a : mat T) : mat T :=
  mkmat (nrows a) (ncols a) (fun i j => if (i < j)%N then get 0 a i j else 0).

Definition add (a b : mat T) : result (mat T) := broadcast2 0 0 +%R a b.
Definition sub (a b : mat T) : result (mat T) :=
  broadcast2 0 0 (fun x y => x - y) a b.
Definition mul (a b : mat T) : result (mat T) := broadcast2 0 0 *%R a b.

(** [np.where(b)] for a 2-D boolean array: the positions holding True, in
    row-major order. *)
Definition where_ (b : mat bool) : seq (nat * nat) :=
  [seq p <- [seq (i, j) | i <- iota 0 (nrows b), j <- iota 0 (ncols b)]
   | get false b p.1 p.2].

(** [np.sum(a, axis=1)]: the sum of each row. *)
Definition sum_axis1 (a : mat T) : seq T := [seq \sum_(x <- r) x | r <- a].

(** [np.fill_diagonal(a, vals)] for a 1-D [vals]: the values are written
    along the diagonal, repeated if there are too few of them. *)
Definition fill_diagonal_vec (a : mat T) (vals : seq T) : mat T :=
  mkmat (nrows a) (ncols a)
    (fun i j => if i == j then nth 0 vals (i %% size vals) else get 0 a i j).

(** [a[np.ix_(rs, cs)]]: the sub-array on rows [rs] and columns [cs]. *)
Definition take_ix (a : mat T) (rs cs : seq nat) : result (mat T) :=
  if all (fun i => i < nrows a)%N rs && all (fun j => j < ncols a)%N cs
  then Ok [seq [seq get 0 a i j | j <- cs] | i <- rs]
  else Raise IndexError.

(** [np.dot(a, v)] for a 2-D [a] and a 1-D [v]. An array without rows has
    lost its column count in this representation and is accepted. *)
Definition dot_mv (a : mat T) (v : seq T) : result (seq T) :=
  if (nrows a == 0%N) || (ncols a == size v)
  then Ok [seq \sum_(0 <= j < size v) nth 0 r j * nth 0 v j | r <- a]
  else Raise ValueError.

End Rings.

Section LinAlg.

Variable R : realFieldType.

Definition mx_of_mat (m n : nat) (a : mat R) : 'M[R]_(m, n) :=
  \matrix_(i, j) get 0 a i j.

Definition mat_of_mx (m n : nat) (M : 'M[R]_(m, n)) : mat R :=
  mkmat m n (fun i j =>
    match insub i, insub j with
    | Some i', Some j' => M i' j'
    | _, _ => 0
    end).

(** [numpy.linalg.inv(a)]: the inverse of a square 2-D array; a singular
    (or non-square) argument raises LinAlgError. The inverse is the one of
    exact arithmetic. *)
Definition inv (a : mat R) : result (mat R) :=
  if nrows a != ncols a then Raise LinAlgError
  else if mx_of_mat (nrows a) (nrows a) a \in unitmx
       then Ok (mat_of_mx (invmx (mx_of_mat (nrows a) (nrows a) a)))
       else Raise LinAlgError.

(** [np.divide(a, b)]; a zero divisor yields the field's [0] here. *)
Definition divide (a b : mat R) : result (mat R) :=
  broadcast2 0 0 (fun x y => x / y) a b.

(** Comparison of two arrays, elementwise. *)
Definition greater (a b : mat R) : result (mat bool) :=
  broadcast2 0 0 (fun x y => y < x) a b.

(** A decimal literal, digit by digit. *)
Definition decimal (ds : seq nat) : R :=
  foldl (fun acc d => acc * 10%:R + d%:R) 0 ds.

End LinAlg.

End Np.

Export Np.

(** ** Module-level helpers of reservoir.py *)

Section Helpers.

Variable R : realFieldType.

(** The default [tol=1e-16] of [check_symmetric]. *)
Definition tol_default : R := (10%:R ^+ 16)^-1.

(** [check_symmetric(a, tol)]: [np.allclose(a, a.T, atol=tol)] *)
Definition check_symmetric (a : mat int) (tol : R) : result bool :=
  allclose a (transpose 0 a) (rtol_default R) tol.

End Helpers.

(** [make_symmetric(a, copy_lower)] *)
Definition make_symmetric (T : nzRingType) (a : mat T) (copy_lower : bool)
    : result (mat T) :=
  if copy_lower then add (tril1 a) (transpose 0 (tril1 a))
  else add (triu1 a) (transpose 0 (triu1 a)).

(** [check_square(a)] *)
Definition check_square (T : Type) (a : mat T) : bool :=
  if nrows a == ncols a then true else false.

Section SetW.

Variable R : realFieldType.

(** [MemristiveReservoir.setW(w)] *)
Definition setW (w : mat R) : result (mat int) :=
  let w := bool_astype_int (astype_bool w) in
  let w := fill_diagonal 0 w 0 in
  sym <-- check_symmetric w (tol_default R) ;;
  if ~~ sym then
    upper_diag <-- take_idx 0 w (triu_indices_from w) ;;
    lower_diag <-- take_idx 0 (transpose 0 w) (triu_indices_from w) ;;
    let W := zeros_like_int w in
    either <-- logical_or upper_diag lower_diag ;;
    W <-- set_idx W (triu_indices_from w)
           (map (fun b : bool => (b : nat)%:Z) either) ;;
    make_symmetric W false
  else Ok w.

End SetW.


(** ** class MemristiveReservoir *)

Section MemristiveReservoir.

Variable R : realFieldType.

Record MemristiveReservoir : Type := mkMemristiveReservoir {
  _W : mat int;
  _I : seq nat;
  _E : seq nat;
  _GR : seq nat;
  _n_internal_nodes : nat;
  _n_external_nodes : nat;
  _n_grounded_nodes : nat;
  _n_nodes : nat;
  _G : option (mat R)
}.

(** [MemristiveReservoir.__init__(w, i_nodes, e_nodes, gr_nodes)] *)
Definition MemristiveReservoir_init (w : mat R)
    (i_nodes e_nodes gr_nodes : seq nat) : result MemristiveReservoir :=
  W <-- setW w ;;
  Ok {| _W := W;
        _I := i_nodes;
        _E := e_nodes;
        _GR := gr_nodes;
        _n_internal_nodes := size i_nodes;
        _n_external_nodes := size e_nodes;
        _n_grounded_nodes := size gr_nodes;
        _n_nodes := size W;
        _G := None |}.


(** [mask(reservoir, a)], as a function of the contents of [a]: the
    entries at the positions where [reservoir._W] is zero become zero.
    (The call writes into [a] itself; see [Heap.mask].) *)
Definition mask (T : nzRingType) (reservoir : MemristiveReservoir)
    (a : mat T) : result (mat T) :=
  set_idx a (where_ (map2d (fun x : int => x == 0) (_W reservoir))) [:: 0].



(** [MemristiveReservoir.solveV_I(V_E, V_GR=None, G=None)] *)
Definition solveV_I (self : MemristiveReservoir) (V_E : seq R)
    (V_GR : option (seq R)) (G : option (mat R)) : result (seq R) :=
  let V_GR := if V_GR is Some v then v else nseq (_n_grounded_nodes self) 0 in
  let G := if G is Some g then Some g else _G self in
  if G is Some G then
    let N := zeros R (_n_nodes self) (_n_nodes self) in
    let N := fill_diagonal_vec N (sum_axis1 G) in
    A <-- sub N G ;;
    A_II <-- take_ix A (_I self) (_I self) ;;
    A_II_inv <-- inv A_II ;;
    G_IE <-- take_ix G (_I self) (_E self) ;;
    H_IE <-- dot_mv G_IE V_E ;;
    G_IGR <-- take_ix G (_I self) (_GR self) ;;
    H_IGR <-- dot_mv G_IGR V_GR ;;
    H_I <-- broadcast1 0 0 +%R H_IE H_IGR ;;
    dot_mv A_II_inv H_I
  else Raise ValueError.

(** The dictionary [{n: v for n, v in zip(nodes, voltage)}]: a later
    pair with the same key replaces an earlier one. *)
Definition nv_lookup (nv_dict : seq (nat * R)) (n : nat) : result R :=
  if [seq p <- rev nv_dict | p.1 == n] is p :: _ then Ok p.2
  else Raise KeyError.

(** One turn of the loop of [getV]. *)
Definition getV_step (nv_dict : seq (nat * R)) (V : result (mat R))
    (ij : nat * nat) : result (mat R) :=
  V <-- V ;;
  let: (i, j) := ij in
  if (i < j)%N then
    vi <-- nv_lookup nv_dict i ;;
    vj <-- nv_lookup nv_dict j ;;
    Ok (set_at V i j (vi - vj))
  else
    vj <-- nv_lookup nv_dict j ;;
    vi <-- nv_lookup nv_dict i ;;
    Ok (set_at V i j (vj - vi)).

(** [MemristiveReservoir.getV(V_I, V_E, V_GR=None)]. The three columns are
    concatenated and squeezed: a single entry gives a 0-d array, over
    which [zip] cannot iterate (TypeError). *)
Definition getV (self : MemristiveReservoir) (V_I V_E : seq R)
    (V_GR : option (seq R)) : result (mat R) :=
  let V_GR := if V_GR is Some v then v else nseq (_n_grounded_nodes self) 0 in
  let voltage := V_I ++ V_E ++ V_GR in
  let nodes := _I self ++ _E self ++ _GR self in
  if (size nodes == 1%N) || (size voltage == 1%N) then Raise TypeError
  else
    let nv_dict := zip nodes voltage in
    let V := zeros R (nrows (_W self)) (ncols (_W self)) in
    V <-- foldl (getV_step nv_dict) (Ok V)
            (where_ (map2d (fun x : int => x != 0) (_W self))) ;;
    mask self V.

(** [MemristiveReservoir.getError(x_0, x_1)], on one entry and on arrays *)
Definition getError1 (x_0 x_1 : R) : R :=
  2 * `|x_1 - x_0| / (`|x_1| + `|x_0|).

End MemristiveReservoir.

Arguments mkMemristiveReservoir {R}.

(** ** class MSSNetwork(MemristiveReservoir) *)

Section MSSNetwork.

Variable R : archiRealFieldType.

(** [numpy.exp], kept abstract. *)
Variable exp : R -> R.

(** Physical parameters of the MSS model (class attributes). *)
Definition MSS_k : R := decimal R [:: 1; 3; 8; 0; 6; 5; 0; 3]%N / 10%:R ^+ 30.
Definition MSS_Q : R :=
  decimal R [:: 1; 6; 0; 2; 1; 7; 6; 4; 6]%N / 10%:R ^+ 27.
Definition MSS_Temp : R := 298%:R.
Definition MSS_b : R := MSS_Q / (MSS_k * MSS_Temp).
Definition MSS_VT : R := 1 / MSS_b.

Record MSSNetwork : Type := mkMSSNetwork {
  base :> MemristiveReservoir R;
  vA : mat R;
  vB : mat R;
  tc : mat R;
  NMSS : mat R;
  Woff : mat R;
  Won : mat R;
  _Ga : mat R;
  _Gb : mat R;
  _Nb : mat R
}.

(** [Nb * (Gb - Ga) + NMSS * Ga], the expression of [__init__] and of the
    property [G]. *)
Definition conductance (Nb Ga Gb nmss : mat R) : result (mat R) :=
  d <-- sub Gb Ga ;;
  t1 <-- mul Nb d ;;
  t2 <-- mul nmss Ga ;;
  add t1 t2.


Definition with_Nb (self : MSSNetwork) (nb : mat R) : MSSNetwork :=
  {| base := base self;
     vA := vA self; vB := vB self; tc := tc self; NMSS := NMSS self;
     Woff := Woff self; Won := Won self; _Ga := _Ga self; _Gb := _Gb self;
     _Nb := nb |}.

(** The getter of the property [Nb]. *)
Definition MSSNetwork_Nb (self : MSSNetwork) : mat R := _Nb self.

(** The setter of the property [Nb]:
    [self._Nb = value]
    [self._Nb[np.where(self._Nb < 0)] = self.NMSS[np.where(self._Nb < 0)]]
    [self._Nb[np.where(self._Nb > self.NMSS)] =
       self.NMSS[np.where(self._Nb > self.NMSS)]] *)
Definition MSSNetwork_set_Nb (self : MSSNetwork) (value : mat R) : result MSSNetwork :=
  let nb := value in
  let below := where_ (map2d (fun x : R => x < 0) nb) in
  vals <-- take_idx 0 (NMSS self) below ;;
  nb <-- set_idx nb below vals ;;
  over <-- greater nb (NMSS self) ;;
  vals <-- take_idx 0 (NMSS self) (where_ over) ;;
  over <-- greater nb (NMSS self) ;;
  nb <-- set_idx nb (where_ over) vals ;;
  Ok (with_Nb self nb).

(** The getter of the property [G] (a property getter receives no [Nb]). *)
Definition MSSNetwork_G (self : MSSNetwork) : result (mat R) :=
  conductance (_Nb self) (_Ga self) (_Gb self) (NMSS self).

(** [a.astype(int)] on a float array: truncation towards zero. *)
Definition astype_int (a : mat R) : mat int :=
  map2d (fun x : R => if 0 <= x then Num.floor x else Num.ceil x) a.

(** [np.random.binomial(n, p)]: the sample is an input; a negative [n] or a
    [p] outside [0, 1] is a ValueError. *)
Definition random_binomial (n : mat int) (p : mat R) (sample : mat int)
    : result (mat int) :=
  ok <-- broadcast2 0 0 (fun (k : int) (x : R) =>
           (0 <= k) && (0 <= x) && (x <= 1)) n p ;;
  if all (all id) ok then Ok sample else Raise ValueError.

(** The default [dt=1e-4] of [dG]. *)
Definition dt_default : R := (10%:R ^+ 4)^-1.

(** [MSSNetwork.dG(V, G=None, dt=1e-4, return_dNb=False)]; [sab] and [sba]
    are the two draws of [np.random.binomial]. With a [G], the argument of
    [mask] is evaluated and [mask] is then called with that single
    argument. *)
Definition dG (self : MSSNetwork) (V : mat R) (G0 : option (mat R)) (dt : R)
    (return_dNb : bool) (sab sba : mat int)
    : result (mat int + mat R) :=
  Nb <-- (if G0 is Some g then
            t <-- mul (NMSS self) (_Ga self) ;;
            n <-- sub g t ;;
            d <-- sub (_Gb self) (_Ga self) ;;
            _ <-- divide n d ;;
            Raise TypeError
          else Ok (_Nb self)) ;;
  let alpha := map2d (fun t : R => dt / t) (tc self) in
  e <-- sub V (vA self) ;;
  let exponent := map2d (fun x : R => -1 * x / MSS_VT) e in
  Pa <-- divide alpha (map2d (fun x : R => 1 + exp x) exponent) ;;
  e <-- add V (vB self) ;;
  let exponent := map2d (fun x : R => -1 * x / MSS_VT) e in
  Pb <-- mul alpha (map2d (fun x : R => 1 - 1 / (1 + exp x)) exponent) ;;
  Na <-- sub (NMSS self) Nb ;;
  pa <-- mask self Pa ;;
  Gab <-- random_binomial (astype_int Na) pa sab ;;
  pb <-- mask self Pb ;;
  Gba <-- random_binomial (astype_int Nb) pb sba ;;
  sym <-- check_symmetric (_W self) (tol_default R) ;;
  G2 <-- (if sym then
            Gab' <-- make_symmetric Gab true ;;
            Gba' <-- make_symmetric Gba true ;;
            Ok (Gab', Gba')
          else Ok (Gab, Gba)) ;;
  dNb <-- sub G2.1 G2.2 ;;
  d <-- sub (_Gb self) (_Ga self) ;;
  dG <-- mul (map2d (fun z : int => z%:~R) dNb) d ;;
  if return_dNb then Ok (inl dNb) else Ok (inr dG).

End MSSNetwork.

(** ** The fixed-point iteration, [MemristiveReservoir.iterate] *)

Section Iterate.

Variable R : realFieldType.

(** The Python values that flow through [iterate]. *)
Inductive pyval : Type :=
  | PyNone
  | PyStr of string
  | PyVec of seq R
  | PyMat of mat R.

(** What [iterate] reaches through [self]: two attributes and four
    methods, looked up on the object at each call. *)
Record reservoir_object : Type := mkObject {
  self_W : mat int;
  self_G : pyval;
  self_getV : pyval -> seq R -> result pyval;
  self_dG : pyval -> pyval -> result pyval;
  self_solveV_I : seq R -> result pyval;
  self_getError : pyval -> pyval -> result pyval
}.

(** A 1-D array that meets a 2-D one is broadcast as a single row. *)
Definition as_rows (x : pyval) : option (mat R) :=
  match x with
  | PyVec v => Some [:: v]
  | PyMat m => Some m
  | _ => None
  end.

(** An elementwise binary operation on two Python values: arrays are
    broadcast, anything else is a TypeError. *)
Definition py_binop (f : R -> R -> R) (x y : pyval) : result pyval :=
  match x, y with
  | PyVec a, PyVec b => r <-- broadcast1 0 0 f a b ;; Ok (PyVec r)
  | _, _ =>
      match as_rows x, as_rows y with
      | Some a, Some b => r <-- broadcast2 0 0 f a b ;; Ok (PyMat r)
      | _, _ => Raise TypeError
      end
  end.

(** [MemristiveReservoir.getError(x_0, x_1)] *)
Definition getError (x_0 x_1 : pyval) : result pyval :=
  py_binop (fun a b => getError1 a b) x_0 x_1.

(** [np.max(ma.masked_array(data, mask=W))]: the largest entry of [data]
    at a position where [W] is zero; [None] stands for numpy's [masked],
    the answer when every entry is masked out. A mask of another shape is
    reshaped when it has as many entries as the data, repeated when it has
    a single entry, and refused otherwise. *)
Definition masked_max (data : pyval) (W : mat int) : result (option R) :=
  if as_rows data is Some rows then
    let d := flatten rows in
    let m := flatten W in
    if (size m != 1%N) && (size m != size d) then Raise MaskError
    else if d is x0 :: _ then
      let m := if size m == size d then m else nseq (size d) (head 0 m) in
      let kept := [seq p.1 | p <- zip d m & p.2 == 0] in
      Ok (if kept is x :: s then Some (foldl Num.max x s) else None)
    else Raise ValueError
  else Raise TypeError.

(** Python's [max(x, y)]: [y] when [y > x], else [x]; a comparison with
    [masked] is not true. *)
Definition py_max (x y : option R) : option R :=
  match x, y with
  | Some a, Some b => if a < b then Some b else Some a
  | _, _ => x
  end.

(** [max_error < tol] as a condition. *)
Definition below_tol (max_error : option R) (tol : R) : bool :=
  if max_error is Some e then e < tol else false.

(** The condition under which the loop of [iterate] stops early:
    [max(np.max(masked(error_V_I)), np.max(masked(error_V_I))) < tol]. *)
Definition converged (W : mat int) (error_V_I error_G : pyval) (tol : R)
    : result bool :=
  m1 <-- masked_max error_V_I W ;;
  m2 <-- masked_max error_V_I W ;;
  Ok (below_tol (py_max m1 m2) tol).

(** One turn of the loop, up to the convergence test. *)
Definition iterate_body (self : reservoir_object) (V_E : seq R) (tol : R)
    (V_I_0 G_0 : pyval) : result (pyval * pyval * bool) :=
  V <-- self_getV self V_I_0 V_E ;;
  d <-- self_dG self V G_0 ;;
  G_1 <-- py_binop +%R (self_G self) d ;;
  V_I_1 <-- self_solveV_I self V_E ;;
  error_V_I <-- self_getError self V_I_0 V_I_1 ;;
  error_G <-- self_getError self G_0 G_1 ;;
  stop <-- converged (self_W self) error_V_I error_G tol ;;
  Ok (V_I_1, G_1, stop).

(** The [while] loop; [left] is [iters - n_iters]. Leaving the loop by
    [break] reaches the end of the function, which returns [None]. *)
Fixpoint iterate_loop (self : reservoir_object) (V_E : seq R) (tol : R)
    (left : nat) (V_I_0 G_0 : pyval) : result (option (pyval * pyval)) :=
  match left with
  | 0%N => Ok None
  | left'.+1 =>
      r <-- iterate_body self V_E tol V_I_0 G_0 ;;
      let: (V_I_1, G_1, stop) := r in
      if stop then Ok (Some (V_I_1, G_1))
      else iterate_loop self V_E tol left' V_I_1 G_1
  end.

(** The defaults [tol=1e-5] and [iters=10]. *)
Definition tol_iterate_default : R := (10%:R ^+ 5)^-1.
Definition iters_default : int := 10.

(** [MemristiveReservoir.iterate(V_E, tol=1e-5, iters=10)] *)
Definition iterate (self : reservoir_object) (V_E : seq R) (tol : R)
    (iters : int) : result (option (pyval * pyval)) :=
  let V_I_0 := PyStr "guess" in
  let G_0 := PyStr "guess" in
  iterate_loop self V_E tol (if iters is Posz n then n else 0%N) V_I_0 G_0.

End Iterate.

Arguments PyNone {R}.
Arguments PyStr {R} _.

(** An [MSSNetwork] instance as [iterate] sees it. *)
Section MSSObject.

Variable R : archiRealFieldType.
Variable exp : R -> R.

Definition MSSNetwork_object (self : MSSNetwork R) (sab sba : mat int)
    : reservoir_object R :=
  {| self_W := _W self;
     self_G := if _G self is Some g then PyMat g else PyNone;
     (* [V_I[:, np.newaxis]] needs a 1-D array *)
     self_getV := fun V_I V_E =>
       match V_I with
       | PyVec vi => V <-- getV self vi V_E None ;; Ok (PyMat V)
       | PyMat _ => Raise ValueError
       | _ => Raise TypeError
       end;
     (* with a [G] the call raises before [V] is read *)
     self_dG := fun V G_0 =>
       match as_rows G_0, G_0, as_rows V with
       | Some g, _, _ =>
           r <-- dG exp self [::] (Some g) (dt_default R) false sab sba ;;
           Ok (if r is inr d then PyMat d else PyNone)
       | None, PyNone, Some v =>
           r <-- dG exp self v None (dt_default R) false sab sba ;;
           Ok (if r is inr d then PyMat d else PyNone)
       | _, _, _ => Raise TypeError
       end;
     self_solveV_I := fun V_E =>
       v <-- solveV_I self V_E None None ;; Ok (PyVec v);
     self_getError := @getError R |}.

End MSSObject.

(** ** Arrays as objects: the heap *)

Module Heap.

Section Heap.

Variable R : realFieldType.
Variable T : nzRingType.

(** An array object is a location of the heap. *)
Definition loc := nat.
Definition heap := seq (mat T).

Definition load (h : heap) (l : loc) : mat T := nth [::] h l.
Definition store (h : heap) (l : loc) (a : mat T) : heap := set_nth [::] h l a.

(** [mask(reservoir, a)] on the object [a]:
    [a[np.where(reservoir._W == 0)] = 0] writes into the array at [a], and
    [return a] hands the same object back. *)
Definition mask (reservoir : MemristiveReservoir R) (a : loc) (h : heap)
    : result (loc * heap) :=
  contents <-- mask reservoir (load h a) ;;
  Ok (a, store h a contents).

End Heap.

End Heap.

(** ** Vocabulary of the statements *)

Section Vocabulary.

Variable R : realFieldType.

(** The raw connectivity has a connection from [i] to [j]. *)
Definition edge (w : mat R) (i j : nat) : bool := get 0 w i j != 0.

(** The undirected closure of the raw connectivity, without self-loops. *)
Definition undirected (w : mat R) (i j : nat) : int :=
  if i == j then 0 else ((edge w i j || edge w j i) : nat)%:Z.


(** The three index sets are pairwise disjoint and cover [0 .. n-1]. *)
Definition valid_partition (n : nat) (I E GR : seq nat) : bool :=
  perm_eq (I ++ E ++ GR) (iota 0 n).

(** The entries of the nodal admittance matrix [N - G] of [solveV_I]. *)
Definition admittance (G : mat R) (i j : nat) : R :=
  (if i == j then \sum_(x <- nth [::] G i) x else 0) - get 0 G i j.

(** What the setter of [Nb] leaves in an entry, from the value assigned
    and the entry of [NMSS]: the two statements of the setter in turn. *)
Definition Nb_stored (v nmss : R) : R :=
  let v1 := if v < 0 then nmss else v in
  if nmss < v1 then nmss else v1.

(** Clamping to the interval from [lo] to [hi]. *)
Definition clamp (lo hi x : R) : R :=
  if x < lo then lo else if hi < x then hi else x.

(** The right-hand side of the system of [solveV_I] for the internal node
    at position [p]: the currents fed by the external and the grounded
    nodes, [G[I,E] . V_E + G[I,GR] . V_GR]. *)
Definition injected (self : MemristiveReservoir R) (G : mat R)
    (V_E V_GR : seq R) (p : nat) : R :=
  \sum_(0 <= e < size (_E self))
     get 0 G (nth 0%N (_I self) p) (nth 0%N (_E self) e) * nth 0 V_E e +
  \sum_(0 <= g < size (_GR self))
     get 0 G (nth 0%N (_I self) p) (nth 0%N (_GR self) g) * nth 0 V_GR g.

(** [k] turns of the loop of [iterate], from [V_I_0] and [G_0], run to
    their end: none raises and none passes the convergence test. *)
Fixpoint turns_without_convergence (self : reservoir_object R)
    (V_E : seq R) (tol : R) (k : nat) (V_I_0 G_0 : pyval R) : bool :=
  match k with
  | 0%N => true
  | k'.+1 =>
      match iterate_body self V_E tol V_I_0 G_0 with
      | Ok (V_I_1, G_1, stop) =>
          ~~ stop && turns_without_convergence self V_E tol k' V_I_1 G_1
      | Raise _ => false
      end
  end.

(** A reservoir object whose methods accept the placeholders of
    [iterate]: one node, a constant solved voltage, and a conductance
    increment that repeats the conductance it is given. [getError] is the
    method of the class, except on a placeholder. *)
Definition duck : reservoir_object R :=
  {| self_W := [:: [:: 0]];
     self_G := PyMat [:: [:: 1]];
     self_getV := fun _ _ => Ok (PyMat [:: [:: 0]]);
     self_dG := fun _ G_0 =>
       Ok (if G_0 is PyMat g then PyMat g else PyMat [:: [:: 1]]);
     self_solveV_I := fun _ => Ok (PyVec [:: 1]);
     self_getError := fun x_0 x_1 =>
       if x_0 is PyStr _ then Ok (PyVec [:: 2]) else getError x_0 x_1 |}.

(** The triangle: one internal, one external and one grounded node, fully
    connected, every conductance 1. *)
Definition triangle : MemristiveReservoir R :=
  mkMemristiveReservoir
    [:: [:: 0; 1; 1]; [:: 1; 0; 1]; [:: 1; 1; 0]]
    [:: 0%N] [:: 1%N] [:: 2%N] 1 1 1 3
    (Some [:: [:: 0; 1; 1]; [:: 1; 0; 1]; [:: 1; 1; 0]]).

End Vocabulary.

(** The entries of [make_symmetric(a, copy_lower)] for a square [a]. *)
Definition mirrored (T : nzRingType) (copy_lower : bool) (a : mat T)
    (i j : nat) : T :=
  if copy_lower
  then (if (j < i)%N then get 0 a i j else 0) +
       (if (i < j)%N then get 0 a j i else 0)
  else (if (i < j)%N then get 0 a i j else 0) +
       (if (j < i)%N then get 0 a j i else 0).

(** The entries of a property matrix drawn as [sample] under the mask [W]. *)
Definition property_field (R : realFieldType) (W : mat int) (sample : mat R)
    (i j : nat) : R :=
  mirrored true sample i j * (get 0 W i j)%:~R.

(** The contents of an array after masking. *)
Definition masked_contents (T : nzRingType) (W : mat int) (a : mat T)
    (i j : nat) : T :=
  if get 0 W i j == 0 then 0 else get 0 a i j.

Section Built.

Variable R : archiRealFieldType.

(** The reservoir that [MSSNetwork.__init__] builds from a square
    n x n [w] and seven n x n draws: every field, entry by entry. *)
Definition MSSNetwork_built (n : nat) (w : mat R)
    (i_nodes e_nodes gr_nodes : seq nat) (s1 s2 s3 s4 s5 s6 s7 : mat R)
    : MSSNetwork R :=
  let W := mkmat n n (undirected w) in
  let F := fun s : mat R => mkmat n n (property_field W s) in
  let Q := fun num : mat R =>
    mkmat n n (masked_contents W
      (mkmat n n (fun i j => get 0 (F num) i j / get 0 (F s4) i j))) in
  let G0 := mkmat n n (fun i j =>
    get 0 (F s7) i j * (get 0 (Q s6) i j - get 0 (Q s5) i j) +
    get 0 (F s4) i j * get 0 (Q s5) i j) in
  mkMSSNetwork
    (mkMemristiveReservoir W i_nodes e_nodes gr_nodes
       (size i_nodes) (size e_nodes) (size gr_nodes) n (Some G0))
    (F s1) (F s2) (F s3) (F s4) (F s5) (F s6) (Q s5) (Q s6) (F s7).

End Built.

(** ** Sample inputs *)

(** A 3-node directed input. *)
Definition w_directed : mat rat :=
  [:: [:: 0; 2%:R; 0]; [:: 0; 5%:R; 0]; [:: 1; 0; 0]].

(** A single row of zeros: a 1 x 3 input. *)
Definition w_row : mat rat := [:: [:: 0; 0; 0]].

(** A 2 x 3 input. *)
Definition w_wide : mat rat := [:: [:: 0; 1; 0]; [:: 1; 0; 0]].

(** A 3 x 1 input with a connection. *)
Definition w_column : mat rat := [:: [:: 0]; [:: 1]; [:: 0]].

(** A reservoir on the normalised [w_directed], and a heap of two arrays. *)
Definition reservoir3 : MemristiveReservoir rat :=
  mkMemristiveReservoir [:: [:: 0; 1; 1]; [:: 1; 0; 0]; [:: 1; 0; 0]]
    [:: 0%N] [:: 1%N] [:: 2%N] 1 1 1 3 None.

Definition heap3 : Heap.heap rat :=
  [:: [:: [:: 1; 2%:R; 3%:R]; [:: 4%:R; 5%:R; 6%:R]; [:: 7%:R; 8%:R; 9%:R]];
      [:: [:: 1; 1; 1]; [:: 1; 1; 1]; [:: 1; 1; 1]]].

(** A draw of [np.random.normal] for three nodes. *)
Definition sample3 : mat rat :=
  [:: [:: 1; 2%:R; 3%:R]; [:: 4%:R; 5%:R; 6%:R]; [:: 7%:R; 8%:R; 9%:R]].

(** The network built on [w_directed] when every draw is [sample3]. *)
Definition mss3 : MSSNetwork rat :=
  MSSNetwork_built 3 w_directed [:: 0%N] [:: 1%N] [:: 2%N]
    sample3 sample3 sample3 sample3 sample3 sample3 sample3.

(** A value to assign to [Nb]: one negative entry, one above [NMSS]. *)
Definition value3 : mat rat :=
  [:: [:: 0; -1; 9%:R]; [:: 2%:R; 0; 0]; [:: 7%:R; 0; 0]].

(** [w_directed] with other weights at the same positions. *)
Definition w_reweighted : mat rat :=
  [:: [:: 0; 1; 0]; [:: 0; 3%:R; 0]; [:: 7%:R; 0; 0]].

(** A 2 x 2 array, smaller than the mask of [reservoir3]. *)
Definition a_small : mat rat := [:: [:: 1; 2%:R]; [:: 3%:R; 4%:R]].

(** Switch counts, switch totals and the two conductances of a pair of
    connected nodes. *)
Definition nb2 : mat rat := [:: [:: 0; 1]; [:: 1; 0]].
Definition nmss2 : mat rat := [:: [:: 0; 2%:R]; [:: 2%:R; 0]].
Definition ga2 : mat rat := [:: [:: 0; 1]; [:: 1; 0]].
Definition gb2 : mat rat := [:: [:: 0; 3%:R]; [:: 3%:R; 0]].

(** Three nodes of which the internal one, node 0, has no connection. *)
Definition isolated3 : MemristiveReservoir rat :=
  mkMemristiveReservoir
    [:: [:: 0; 0; 0]; [:: 0; 0; 1]; [:: 0; 1; 0]]
    [:: 0%N] [:: 1%N] [:: 2%N] 1 1 1 3
    (Some [:: [:: 0; 0; 0]; [:: 0; 0; 1]; [:: 0; 1; 0]]).

(** The triangle with an internal node index outside the network. *)
Definition misindexed3 : MemristiveReservoir rat :=
  mkMemristiveReservoir
    [:: [:: 0; 1; 1]; [:: 1; 0; 1]; [:: 1; 1; 0]]
    [:: 3%N] [:: 1%N] [:: 2%N] 1 1 1 3
    (Some [:: [:: 0; 1; 1]; [:: 1; 0; 1]; [:: 1; 1; 0]]).

(** The conductances of the two, and of the triangle. *)
Definition G_isolated3 : mat rat :=
  [:: [:: 0; 0; 0]; [:: 0; 0; 1]; [:: 0; 1; 0]].
Definition G_triangle : mat rat :=
  [:: [:: 0; 1; 1]; [:: 1; 0; 1]; [:: 1; 1; 0]].

(** The voltage that [getV] reads for node [i]: the entry of the
    concatenated voltages at the place of [i] among the concatenated node
    indices. *)
Definition node_voltage (R : realFieldType) (self : MemristiveReservoir R)
    (V_I V_E V_GR : seq R) (i : nat) : R :=
  nth 0 (V_I ++ V_E ++ V_GR) (seq.index i (_I self ++ _E self ++ _GR self)).

(** The triangle with node 1 left out of the three index arrays. *)
Definition unlisted3 : MemristiveReservoir rat :=
  mkMemristiveReservoir
    [:: [:: 0; 1; 1]; [:: 1; 0; 1]; [:: 1; 1; 0]]
    [:: 0%N] [::] [:: 2%N] 1 0 1 3
    (Some [:: [:: 0; 1; 1]; [:: 1; 0; 1]; [:: 1; 1; 0]]).

(** * Properties *)

(** ** Arrays built and read position by position *)

Section ArrayFacts.

Variable T : Type.
Implicit Types (a b : mat T) (d v : T) (idx : seq (nat * nat)).

Lemma size_mkmat m n (f : nat -> nat -> T) : size (mkmat m n f) = m.
Proof. by rewrite /mkmat size_mkseq. Qed.

Lemma has_shape_mkmat m n (f : nat -> nat -> T) : has_shape m n (mkmat m n f).
Proof.
rewrite /has_shape size_mkmat eqxx /= /mkmat /mkseq all_map.
by apply/allP => i _ /=; rewrite size_map size_iota.
Qed.

Lemma get_mkmat d m n (f : nat -> nat -> T) i j :
  (i < m)%N -> (j < n)%N -> get d (mkmat m n f) i j = f i j.
Proof. by move=> im jn; rewrite /get /mkmat nth_mkseq // nth_mkseq. Qed.

Lemma size_shape m n a : has_shape m n a -> size a = m.
Proof. by case/andP => /eqP. Qed.

Lemma nrows_shape m n a : has_shape m n a -> nrows a = m.
Proof. exact: size_shape. Qed.

Lemma size_row m n a i : has_shape m n a -> (i < m)%N -> size (nth [::] a i) = n.
Proof.
case/andP => /eqP sa /(all_nthP [::]) ha im; apply/eqP/ha.
by rewrite sa.
Qed.

Lemma ncols_shape m n a : has_shape m n a -> (0 < m)%N -> ncols a = n.
Proof.
move=> ha m0; rewrite /ncols -nth0.
exact: (size_row ha).
Qed.

Lemma ncols_square n a : has_shape n n a -> ncols a = n.
Proof.
case: n => [|n] ha; last exact: (ncols_shape ha).
by move: ha; rewrite /has_shape /ncols; case: a.
Qed.

Lemma mkmat_ext m n (f g : nat -> nat -> T) :
  (forall i j, (i < m)%N -> (j < n)%N -> f i j = g i j) ->
  mkmat m n f = mkmat m n g.
Proof.
move=> fg; apply: (@eq_from_nth _ [::]); rewrite !size_mkmat // => i im.
rewrite !nth_mkseq //.
case: n fg => [|n] fg //.
apply: (@eq_from_nth _ (f 0%N 0%N)); rewrite !size_mkseq // => j jn.
by rewrite !nth_mkseq // fg.
Qed.

Lemma mkmat_get d m n a : has_shape m n a -> mkmat m n (get d a) = a.
Proof.
move=> ha; apply: (@eq_from_nth _ [::]).
  by rewrite size_mkmat (size_shape ha).
rewrite size_mkmat => i im; rewrite nth_mkseq //.
apply: (@eq_from_nth _ d); first by rewrite size_mkseq (size_row ha).
by rewrite size_mkseq => j jn; rewrite nth_mkseq.
Qed.

Lemma shape_eq d m n a b :
  has_shape m n a -> has_shape m n b ->
  (forall i j, (i < m)%N -> (j < n)%N -> get d a i j = get d b i j) -> a = b.
Proof.
move=> ha hb e.
by rewrite -(mkmat_get d ha) -(mkmat_get d hb); apply: mkmat_ext.
Qed.

Lemma set_at_mkmat d m n a i j v :
  has_shape m n a -> (i < m)%N -> (j < n)%N ->
  set_at a i j v =
  mkmat m n (fun i' j' => if (i' == i) && (j' == j) then v else get d a i' j').
Proof.
move=> ha im jn.
have hs : has_shape m n (set_at a i j v).
  rewrite /has_shape /set_at size_set_nth (size_shape ha).
  rewrite (maxn_idPr _) // eqxx /=.
  apply/(all_nthP [::]) => k; rewrite size_set_nth (size_shape ha).
  rewrite (maxn_idPr _) // => km; rewrite nth_set_nth /=.
  case: ifP => _; last by rewrite (size_row ha).
  by rewrite size_set_nth (size_row ha) // (maxn_idPr _).
rewrite -[LHS](mkmat_get d hs); apply: mkmat_ext => i' j' i'm j'n.
rewrite /get /set_at nth_set_nth /=.
case: (i' =P i) => [->|//] /=.
have sr := size_row ha im.
rewrite (set_nth_default v d) ?size_set_nth ?sr ?(maxn_idPr _) //.
rewrite nth_set_nth /=; case: ifP => // _.
by apply: set_nth_default; rewrite sr.
Qed.

Lemma take_idx_map d m n a idx :
  has_shape m n a -> all (fun p => (p.1 < m)%N && (p.2 < n)%N) idx ->
  take_idx d a idx = Ok [seq get d a p.1 p.2 | p <- idx].
Proof.
move=> ha; elim: idx => [|[i j] idx IH] //= /andP[/andP[im jn] hidx].
have m0 : (0 < m)%N by case: (m) im.
by rewrite (nrows_shape ha) (ncols_shape ha) // im jn /= IH.
Qed.

Lemma put_idx_map d m n a idx (g : nat * nat -> T) :
  has_shape m n a -> all (fun p => (p.1 < m)%N && (p.2 < n)%N) idx ->
  put_idx a idx [seq g p | p <- idx] =
  Ok (mkmat m n (fun i j => if (i, j) \in idx then g (i, j) else get d a i j)).
Proof.
elim: idx a => [|[i j] idx IH] a ha /=.
  by move=> _; rewrite (mkmat_get d ha).
case/andP => /andP[im jn] hidx.
have m0 : (0 < m)%N by case: (m) im.
rewrite (nrows_shape ha) (ncols_shape ha) // im jn /=.
rewrite (set_at_mkmat d _ ha) // IH ?has_shape_mkmat //.
congr Ok; apply: mkmat_ext => i' j' i'm j'n.
rewrite in_cons get_mkmat // xpair_eqE.
case: ((i', j') \in idx); first by rewrite orbT.
by rewrite orbF; case: (i' =P i) => [->|//]; case: (j' =P j) => [->|].
Qed.

End ArrayFacts.

Section BroadcastFacts.

Variables A B C : Type.

Lemma bidx_lt m i : (i < m)%N -> bidx m i = i.
Proof. by rewrite /bidx; case: eqP => [->|//]; case: i. Qed.

Lemma bdim_same m : bdim m m = Some m.
Proof. by rewrite /bdim eqxx. Qed.

Lemma broadcast2_same (da : A) (db : B) (f : A -> B -> C) m n a b :
  has_shape m n a -> has_shape m n b ->
  broadcast2 da db f a b =
  Ok (mkmat m n (fun i j => f (get da a i j) (get db b i j))).
Proof.
move=> ha hb; rewrite /broadcast2 (nrows_shape ha) (nrows_shape hb) bdim_same.
case: m ha hb => [|m] ha hb.
  by move: ha hb; case: a => //; case: b.
rewrite (ncols_shape ha) // (ncols_shape hb) // bdim_same.
by congr Ok; apply: mkmat_ext => i j im jn; rewrite !bidx_lt.
Qed.

Lemma broadcast1_same (da : A) (db : B) (f : A -> B -> C) a b :
  size a = size b ->
  broadcast1 da db f a b =
  Ok (mkseq (fun i => f (nth da a i) (nth db b i)) (size a)).
Proof.
move=> sab; rewrite /broadcast1 -sab bdim_same; congr Ok.
apply: (@eq_from_nth _ (f da db)); rewrite !size_mkseq // => i ia.
by rewrite !nth_mkseq // bidx_lt.
Qed.

Lemma has_shape_map2d (f : A -> B) m n a :
  has_shape m n a -> has_shape m n (map2d f a).
Proof.
case/andP => sa ha; rewrite /has_shape /map2d size_map sa /= all_map.
apply/(all_nthP [::]) => i ia /=; rewrite size_map.
exact: (all_nthP [::] ha).
Qed.

Lemma get_map2d (da : A) (db : B) (f : A -> B) m n a i j :
  has_shape m n a -> (i < m)%N -> (j < n)%N ->
  get db (map2d f a) i j = f (get da a i j).
Proof.
move=> ha im jn; rewrite /get /map2d (nth_map [::]) ?(size_shape ha) //.
by rewrite (nth_map da) // (size_row ha).
Qed.

End BroadcastFacts.

Section MoreArrayFacts.

Variable T : Type.

Lemma transpose_shape (d : T) m n (a : mat T) :
  has_shape m n a -> (0 < m)%N ->
  transpose d a = mkmat n m (fun i j => get d a j i).
Proof. by move=> ha m0; rewrite /transpose (ncols_shape ha) // (nrows_shape ha). Qed.

Lemma transpose_square (d : T) n (a : mat T) :
  has_shape n n a -> transpose d a = mkmat n n (fun i j => get d a j i).
Proof. by move=> ha; rewrite /transpose (ncols_square ha) (nrows_shape ha). Qed.

Lemma all_mkmat m n (f : nat -> nat -> bool) :
  reflect (forall i j, (i < m)%N -> (j < n)%N -> f i j)
          (all (all id) (mkmat m n f)).
Proof.
rewrite /mkmat /mkseq all_map.
apply: (iffP allP) => [h i j im jn|h i]; last first.
  rewrite mem_iota add0n /= => im; rewrite all_map.
  by apply/allP => j; rewrite mem_iota add0n /= => jn; apply: h.
have := h i; rewrite mem_iota add0n /= => /(_ im); rewrite all_map.
by move/allP/(_ j); rewrite mem_iota add0n /=; apply.
Qed.

Lemma mem_triu_indices m n i j :
  ((i, j) \in triu_indices m n) = [&& (i < m)%N, (i < j)%N & (j < n)%N].
Proof.
apply/flatten_mapP/and3P => [[k]|[im ij jn]].
  rewrite mem_iota add0n /= => km /mapP[l]; rewrite mem_iota => /andP[kl ln].
  case=> -> ->; split=> //.
  move: kl ln => /ssrnat.ltP kl /ssrnat.ltP; rewrite -plusE -minusE => ln.
  by apply/ssrnat.ltP; lia.
exists i; first by rewrite mem_iota.
apply/mapP; exists j => //; rewrite mem_iota ij /= subnKC //.
exact: ltn_trans ij jn.
Qed.

Lemma triu_indices_in m n :
  all (fun p => (p.1 < m)%N && (p.2 < n)%N) (triu_indices m n).
Proof.
apply/allP => -[i j]; rewrite mem_triu_indices => /and3P[-> _ ->].
by [].
Qed.

End MoreArrayFacts.

Section ToleranceFacts.

Variable R : realFieldType.

Lemma isclose_bool (b1 b2 : bool) :
  isclose (rtol_default R) (tol_default R) (b1 : nat)%:Z (b2 : nat)%:Z
  = (b1 == b2).
Proof.
rewrite /isclose /rtol_default /tol_default.
have h1 : 0 <= (10%:R ^+ 16)^-1 + (10%:R ^+ 5)^-1 :> R by lra.
have h2 : (10%:R ^+ 16)^-1 + (10%:R ^+ 5)^-1 < 1 :> R by lra.
have h3 : 0 <= (10%:R ^+ 16)^-1 :> R by lra.
have h4 : (10%:R ^+ 16)^-1 < 1 :> R by lra.
case: b1; case: b2 => /=;
  rewrite ?subrr ?subr0 ?sub0r ?normrN ?normr0 ?normr1 /= ?mulr1 ?mulr0 ?addr0.
- by rewrite h1.
- by rewrite leNgt h4.
- by rewrite leNgt h2.
- by rewrite h3.
Qed.

End ToleranceFacts.

Section SetWFacts.

Variable R : realFieldType.
Implicit Types (w : mat R).

Let directed w (i j : nat) : int :=
  if i == j then 0 else (edge w i j : nat)%:Z.

Lemma binarized n w :
  has_shape n n w ->
  fill_diagonal 0 (bool_astype_int (astype_bool w)) 0 = mkmat n n (directed w).
Proof.
move=> hw.
have h1 : has_shape n n (astype_bool w) by apply: has_shape_map2d.
have h2 : has_shape n n (bool_astype_int (astype_bool w)).
  exact: has_shape_map2d.
rewrite /fill_diagonal (nrows_shape h2) (ncols_square h2).
apply: mkmat_ext => i j im jn; rewrite /directed; case: ifP => // _.
by rewrite (get_map2d false _ _ h1) // (get_map2d 0 _ _ hw).
Qed.

Lemma check_symmetric_binary n (f : nat -> nat -> bool) :
  check_symmetric (mkmat n n (fun i j => (f i j : nat)%:Z)) (tol_default R) =
  Ok (all (all id) (mkmat n n (fun i j => f i j == f j i))).
Proof.
rewrite /check_symmetric /allclose.
rewrite (transpose_square 0 (has_shape_mkmat _ _ _)).
rewrite (broadcast2_same _ _ _ (has_shape_mkmat _ _ _) (has_shape_mkmat _ _ _)).
rewrite /=; congr (Ok (all _ _)); apply: mkmat_ext => i j im jn.
by rewrite !get_mkmat // isclose_bool.
Qed.

Lemma setW_square n w :
  has_shape n n w -> setW w = Ok (mkmat n n (undirected w)).
Proof.
move=> hw; rewrite /setW (binarized hw).
pose f i j := (i != j) && edge w i j.
have -> : mkmat n n (directed w) = mkmat n n (fun i j => (f i j : nat)%:Z).
  by apply: mkmat_ext => i j _ _; rewrite /directed /f; case: eqP.
rewrite check_symmetric_binary /=.
set W0 := mkmat n n (fun i j => (f i j : nat)%:Z).
have hW0 : has_shape n n W0 by apply: has_shape_mkmat.
case: all_mkmat => [sym|_] /=.
  congr Ok; apply: mkmat_ext => i j im jn; rewrite /undirected /f.
  case: eqP => [//|/eqP ij] /=.
  have ji : j != i by rewrite eq_sym.
  by have := sym i j im jn; rewrite /f ij ji /= => /eqP <-; rewrite orbb.
rewrite /triu_indices_from (nrows_shape hW0) (ncols_square hW0).
rewrite (take_idx_map 0 hW0) ?triu_indices_in //=.
have hT : has_shape n n (transpose 0 W0).
  by rewrite (transpose_square 0 hW0); apply: has_shape_mkmat.
rewrite (take_idx_map 0 hT) ?triu_indices_in //=.
rewrite /logical_or broadcast1_same ?size_map //=.
pose g (p : nat * nat) : int := ((f p.1 p.2 || f p.2 p.1) : nat)%:Z.
set vals := map _ (mkseq _ _).
have -> : vals = [seq g p | p <- triu_indices n n].
  apply: (@eq_from_nth _ 0); first by rewrite !size_map size_iota.
  move=> k; rewrite !size_map size_iota => kn.
  rewrite (nth_map false) ?size_mkseq // nth_mkseq //.
  rewrite !(nth_map (0%N, 0%N)) //.
  have /allP/(_ _ (mem_nth (0%N, 0%N) kn)) := triu_indices_in n n.
  case: (nth _ _ k) => i j /= /andP[im jn].
  rewrite (transpose_square 0 hW0) !get_mkmat // /g /=.
  by case: (f i j); case: (f j i).
rewrite /zeros_like_int (nrows_shape hW0) (ncols_square hW0).
have hZ := has_shape_mkmat n n (fun _ _ => 0 : int).
rewrite /set_idx size_map eqxx (put_idx_map 0 _ hZ) ?triu_indices_in //=.
set W1 := mkmat n n _.
have hW1 : has_shape n n W1 by apply: has_shape_mkmat.
rewrite /make_symmetric /add /triu1 (nrows_shape hW1) (ncols_square hW1).
rewrite (transpose_square 0 (has_shape_mkmat _ _ _)).
rewrite (broadcast2_same _ _ _ (has_shape_mkmat _ _ _) (has_shape_mkmat _ _ _)).
congr Ok; apply: mkmat_ext => i j im jn.
rewrite !get_mkmat // !mem_triu_indices im jn.
rewrite /undirected /g /f /=.
rewrite !andbT; case: (ltngtP i j) => [ij|ji|//] /=.
- by rewrite addr0.
- by rewrite add0r orbC.
Qed.

End SetWFacts.

(** ** Connectivity normalisation *)

Section SetWClaims.

Variable R : realFieldType.
Implicit Types (w : mat R).

Lemma undirected_sym w i j : undirected w i j = undirected w j i.
Proof. by rewrite /undirected eq_sym orbC. Qed.

Lemma undirected_diag w i : undirected w i i = 0.
Proof. by rewrite /undirected eqxx. Qed.

Lemma undirected_bool w i j :
  (undirected w i j == 0) || (undirected w i j == 1).
Proof.
by rewrite /undirected; case: ifP => // _; case: (edge w i j || edge w j i).
Qed.

Lemma undirected_edge w i j :
  i <> j ->
  undirected w i j = 1 <-> get 0 w i j <> 0 \/ get 0 w j i <> 0.
Proof.
move=> /eqP/negbTE ij; rewrite /undirected ij /edge.
case: (get 0 w i j =P 0) => [->|ne1] /=; last by split=> // _; left.
case: (get 0 w j i =P 0) => [->|ne2] /=; last by split=> // _; right.
by split=> // -[].
Qed.

(** C3. For every square numeric raw connectivity matrix [w], [setW]
    returns a mask [W] of the same shape that is symmetric ([W] is its own
    transpose), has a zero diagonal and entries in {0, 1}, and in which,
    for [i <> j], [W[i,j] = 1] exactly when [w[i,j] <> 0] or
    [w[j,i] <> 0]. *)
Theorem setW_symmetric_binary_closure n w :
  has_shape n n w ->
  exists W : mat int,
    setW w = Ok W /\ has_shape n n W /\ transpose 0 W = W /\
    (forall i, (i < n)%N -> get 0 W i i = 0) /\
    (forall i j, (i < n)%N -> (j < n)%N ->
       (get 0 W i j == 0) || (get 0 W i j == 1)) /\
    (forall i j, (i < n)%N -> (j < n)%N -> i <> j ->
       (get 0 W i j = 1 <-> get 0 w i j <> 0 \/ get 0 w j i <> 0)).
Proof.
move=> hw; exists (mkmat n n (undirected w)).
have hW := has_shape_mkmat n n (undirected w).
split; first exact: setW_square.
split=> //; split.
  rewrite (transpose_square 0 hW); apply: mkmat_ext => i j im jn.
  by rewrite get_mkmat // undirected_sym.
split; first by move=> i im; rewrite get_mkmat // undirected_diag.
split; first by move=> i j im jn; rewrite get_mkmat // undirected_bool.
by move=> i j im jn ij; rewrite get_mkmat //; apply: undirected_edge.
Qed.

Lemma setW_no_broadcast m n w :
  has_shape m n w -> (0 < m)%N -> m <> n -> m <> 1%N -> n <> 1%N ->
  setW w = Raise ValueError.
Proof.
move=> hw m0 /eqP/negbTE mn /eqP/negbTE m1 /eqP/negbTE n1.
have h2 : has_shape m n (bool_astype_int (astype_bool w)).
  by do 2!apply: has_shape_map2d.
rewrite /setW /check_symmetric /allclose /broadcast2.
rewrite /fill_diagonal (nrows_shape h2) (ncols_shape h2) //.
have hf := has_shape_mkmat m n
  (fun i j => if i == j then 0 else get 0 (bool_astype_int (astype_bool w)) i j).
rewrite [nrows (transpose _ _)]size_mkmat (ncols_shape hf) // (nrows_shape hf).
by rewrite /bdim mn m1 n1.
Qed.

End SetWClaims.

Lemma setW_symmetric_binary_closure_witness :
  has_shape 3 3 w_directed /\
  exists W : mat int,
    setW w_directed = Ok W /\ has_shape 3 3 W /\ transpose 0 W = W /\
    (forall i, (i < 3)%N -> get 0 W i i = 0) /\
    (forall i j, (i < 3)%N -> (j < 3)%N ->
       (get 0 W i j == 0) || (get 0 W i j == 1)) /\
    (forall i j, (i < 3)%N -> (j < 3)%N -> i <> j ->
       (get 0 W i j = 1 <->
        get 0 w_directed i j <> 0 \/ get 0 w_directed j i <> 0)).
Proof.
split; first by [].
exact: (@setW_symmetric_binary_closure _ 3%N w_directed (erefl true)).
Defined.

Lemma setW_w_directed :
  setW w_directed = Ok [:: [:: 0; 1; 1]; [:: 1; 0; 0]; [:: 1; 0; 0]].
Proof. by rewrite (@setW_square _ 3). Qed.

(** ** The symmetry test on binary arrays is exact *)

Section BinaryArrays.

Variables (A B : Type) (da : A) (db : B) (f : A -> B).
Hypothesis fd : f da = db.

Lemma nrows_map2d (a : mat A) : nrows (map2d f a) = nrows a.
Proof. by rewrite /nrows /map2d size_map. Qed.

Lemma ncols_map2d (a : mat A) : ncols (map2d f a) = ncols a.
Proof. by rewrite /ncols /map2d; case: a => //= r a; rewrite size_map. Qed.

Lemma get_map2d_default (a : mat A) i j :
  get db (map2d f a) i j = f (get da a i j).
Proof.
rewrite /get /map2d.
have -> : nth [::] (map (map f) a) i = map f (nth [::] a i).
  case: (ltnP i (size a)) => ia; first by rewrite (nth_map [::]).
  by rewrite nth_default ?size_map // [in RHS]nth_default.
rewrite -fd.
case: (ltnP j (size (nth [::] a i))) => ja; first by rewrite (nth_map da).
by rewrite nth_default ?size_map // [in RHS]nth_default.
Qed.

End BinaryArrays.

Section BinarySymmetry.

Variable R : realFieldType.

Let b2z (b : bool) : int := (b : nat)%:Z.

Lemma fill_diagonal_bool (a : mat bool) :
  fill_diagonal 0 (bool_astype_int a) 0 =
  bool_astype_int (fill_diagonal false a false).
Proof.
rewrite /fill_diagonal /bool_astype_int nrows_map2d ncols_map2d.
apply: (@shape_eq _ 0 (nrows a) (ncols a)); first exact: has_shape_mkmat.
  exact/has_shape_map2d/has_shape_mkmat.
move=> i j im jn.
rewrite (@get_map2d_default _ _ false 0) // !get_mkmat //.
by case: ifP => // _; rewrite (@get_map2d_default _ _ false 0).
Qed.

Lemma transpose_bool (a : mat bool) :
  transpose 0 (bool_astype_int a) = bool_astype_int (transpose false a).
Proof.
rewrite /transpose /bool_astype_int nrows_map2d ncols_map2d.
apply: (@shape_eq _ 0 (ncols a) (nrows a)); first exact: has_shape_mkmat.
  exact/has_shape_map2d/has_shape_mkmat.
move=> i j im jn.
by rewrite (@get_map2d_default _ _ false 0) // !get_mkmat //
          (@get_map2d_default _ _ false 0).
Qed.

(** On arrays of 0 and 1 the tolerances of [np.allclose] play no role. *)
Lemma check_symmetric_bool (a : mat bool) :
  check_symmetric (bool_astype_int a) (tol_default R) =
  (c <-- broadcast2 false false (fun x y : bool => x == y)
           a (transpose false a) ;;
   Ok (all (all id) c)).
Proof.
rewrite /check_symmetric /allclose transpose_bool /broadcast2.
rewrite /bool_astype_int !nrows_map2d !ncols_map2d.
case: (bdim _ _) => [m|] //; case: (bdim _ _) => [n|] //=.
congr (Ok (all _ _)); apply: mkmat_ext => i j im jn.
by rewrite !(@get_map2d_default _ _ false 0) // isclose_bool.
Qed.

(** [setW] with its symmetry test decided on booleans. *)
Lemma setW_bool (w : mat R) :
  setW w =
  (let b := fill_diagonal false (astype_bool w) false in
   let w := bool_astype_int b in
   sym <-- (c <-- broadcast2 false false (fun x y : bool => x == y)
                    b (transpose false b) ;;
            Ok (all (all id) c)) ;;
   if ~~ sym then
     upper_diag <-- take_idx 0 w (triu_indices_from w) ;;
     lower_diag <-- take_idx 0 (transpose 0 w) (triu_indices_from w) ;;
     let W := zeros_like_int w in
     either <-- logical_or upper_diag lower_diag ;;
     W <-- set_idx W (triu_indices_from w)
            (map (fun b : bool => (b : nat)%:Z) either) ;;
     make_symmetric W false
   else Ok w).
Proof. by rewrite /setW fill_diagonal_bool check_symmetric_bool. Qed.

End BinarySymmetry.

Lemma setW_w_row : setW w_row = Ok [:: [:: 0; 0; 0]].
Proof. by rewrite setW_bool. Qed.

Lemma setW_w_wide : setW w_wide = Raise ValueError.
Proof. by rewrite setW_bool. Qed.

Lemma setW_w_column :
  setW w_column = Ok [:: [:: 0; 0; 0]; [:: 0; 0; 0]; [:: 0; 0; 0]].
Proof. by rewrite setW_bool. Qed.

(** ** Inputs that are not square *)

(** C9 (as amended). [setW] makes no test of squareness and has no
    ShapeError to raise: on an m x n input with [m <> n] and both [m] and
    [n] different from 1, the symmetry test cannot broadcast the array
    against its transpose, the call fails with numpy's ValueError and no
    mask is returned. *)
Theorem setW_non_square_ValueError (R : realFieldType) m n (w : mat R) :
  has_shape m n w -> (0 < m)%N -> m <> n -> m <> 1%N -> n <> 1%N ->
  setW w = Raise ValueError.
Proof. exact: setW_no_broadcast. Qed.

Lemma setW_non_square_ValueError_witness :
  (has_shape 2 3 w_wide /\ (0 < 2)%N /\ 2%N <> 3%N /\ 2%N <> 1%N /\ 3%N <> 1%N)
  /\ setW w_wide = Raise ValueError.
Proof.
split; first by [].
exact: (@setW_non_square_ValueError _ 2%N 3%N w_wide
          (erefl true) (erefl true)).
Defined.

(** C9 fails as stated: a 1 x 3 array of zeros is not square, and [setW]
    returns it as the mask; a 2 x 3 array makes it fail, with a
    ValueError. *)
Lemma setW_non_square_counterexample :
  (has_shape 1 3 w_row /\ check_square w_row = false /\
   setW w_row = Ok [:: [:: 0; 0; 0]]) /\
  (has_shape 2 3 w_wide /\ check_square w_wide = false /\
   setW w_wide = Raise ValueError).
Proof. by rewrite setW_w_row setW_w_wide. Qed.

(** ** Construction *)

Section Construction.

Variable R : realFieldType.

Lemma init_square n (w : mat R) i_nodes e_nodes gr_nodes :
  has_shape n n w ->
  MemristiveReservoir_init w i_nodes e_nodes gr_nodes =
  Ok (mkMemristiveReservoir (mkmat n n (undirected w))
        i_nodes e_nodes gr_nodes
        (size i_nodes) (size e_nodes) (size gr_nodes) n None).
Proof.
by move=> hw; rewrite /MemristiveReservoir_init (setW_square hw) /= size_mkmat.
Qed.

(** C8 (as amended). The constructor makes no test of the three index
    arrays: for every square [w] and every triple, disjoint or not,
    covering or not, construction succeeds, and the reservoir holds the
    arrays as they were given, with their lengths as the node counts. *)
Theorem init_accepts_every_partition n (w : mat R) i_nodes e_nodes gr_nodes :
  has_shape n n w ->
  exists self : MemristiveReservoir R,
    MemristiveReservoir_init w i_nodes e_nodes gr_nodes = Ok self /\
    _I self = i_nodes /\ _E self = e_nodes /\ _GR self = gr_nodes /\
    _n_internal_nodes self = size i_nodes /\
    _n_external_nodes self = size e_nodes /\
    _n_grounded_nodes self = size gr_nodes /\
    _n_nodes self = n.
Proof. by move=> hw; rewrite (init_square _ _ _ hw); eexists. Qed.

End Construction.

Lemma init_accepts_every_partition_witness :
  has_shape 3 3 w_directed /\
  exists self : MemristiveReservoir rat,
    MemristiveReservoir_init w_directed [:: 0; 1]%N [:: 1]%N [::] = Ok self /\
    _I self = [:: 0; 1]%N /\ _E self = [:: 1]%N /\ _GR self = [::] /\
    _n_internal_nodes self = 2%N /\
    _n_external_nodes self = 1%N /\
    _n_grounded_nodes self = 0%N /\
    _n_nodes self = 3%N.
Proof.
split; first by [].
exact: (@init_accepts_every_partition _ 3%N w_directed
          [:: 0; 1]%N [:: 1]%N [::] (erefl true)).
Defined.

(** C8 fails as stated: internal nodes {0, 1}, external nodes {1} and no
    grounded node overlap and leave node 2 out, and construction
    succeeds. *)
Lemma init_invalid_partition_counterexample :
  valid_partition 3 [:: 0; 1]%N [:: 1]%N [::] = false /\
  returns (MemristiveReservoir_init w_directed [:: 0; 1]%N [:: 1]%N [::]).
Proof. by rewrite (@init_square _ 3). Qed.

(** ** Positions selected by a condition, and masking *)

Lemma mem_where (b : mat bool) i j :
  ((i, j) \in where_ b) = [&& (i < nrows b)%N, (j < ncols b)%N & get false b i j].
Proof.
rewrite /where_ mem_filter /= andbC andbA; congr (_ && _).
apply/allpairsP/andP => [[[i' j'] /= [hi hj [-> ->]]]|[hi hj]].
  by move: hi hj; rewrite !mem_iota !add0n.
by exists (i, j); split; rewrite ?mem_iota.
Qed.

Lemma where_in m n (b : mat bool) :
  has_shape m n b -> all (fun p => (p.1 < m)%N && (p.2 < n)%N) (where_ b).
Proof.
move=> hb; apply/allP => -[i j]; rewrite mem_where => /and3P[im jn _] /=.
move: im jn; rewrite (nrows_shape hb) => im.
by rewrite (ncols_shape hb) ?im //; case: (m) im.
Qed.

Section Masking.

Variable R : realFieldType.
Variable T : nzRingType.
Implicit Types (self : MemristiveReservoir R) (a : mat T).

Lemma set_idx_scalar a idx (v : T) :
  set_idx a idx [:: v] = put_idx a idx [seq v | _ <- idx].
Proof.
have mc : [seq v | _ <- idx] = nseq (size idx) v.
  by elim: idx => //= _ idx ->.
rewrite /set_idx /= mc; case: eqP => // s1.
by case: idx s1 {mc} => [|p [|q idx]].
Qed.

Lemma mask_shape self m n a :
  has_shape m n (_W self) -> has_shape m n a ->
  mask self a = Ok (mkmat m n (masked_contents (_W self) a)).
Proof.
move=> hW ha; rewrite /mask set_idx_scalar.
have hb : has_shape m n (map2d (fun x : int => x == 0) (_W self)).
  exact: has_shape_map2d.
rewrite (put_idx_map 0 _ ha) ?(where_in hb) //; congr Ok.
apply: mkmat_ext => i j im jn; rewrite mem_where (nrows_shape hb).
have m0 : (0 < m)%N by case: (m) im.
rewrite (ncols_shape hb) // im jn /= (get_map2d 0 _ _ hW) //.
Qed.


End Masking.

(** ** [mask] writes into its argument *)

Section InPlace.

Variable R : realFieldType.
Variable T : nzRingType.

(** C10. [mask(reservoir, a)] returns the object [a] it was given, and
    after the call that object holds the masked contents: zero wherever
    [_W] is zero, the former entry elsewhere. No other object of the heap
    changes. The write is visible to the caller: an array that had a
    non-zero entry off the mask is no longer what it was. *)
Theorem mask_in_place (reservoir : MemristiveReservoir R) m n
    (a : Heap.loc) (h : Heap.heap T) :
  has_shape m n (_W reservoir) -> (a < size h)%N ->
  has_shape m n (Heap.load h a) ->
  exists h' : Heap.heap T,
    Heap.mask reservoir a h = Ok (a, h') /\
    size h' = size h /\
    (forall i j, (i < m)%N -> (j < n)%N ->
       get 0 (Heap.load h' a) i j =
       if get 0 (_W reservoir) i j == 0 then 0
       else get 0 (Heap.load h a) i j) /\
    (forall l, l <> a -> Heap.load h' l = Heap.load h l) /\
    ((exists i j, [/\ (i < m)%N, (j < n)%N, get 0 (_W reservoir) i j = 0 &
                      get 0 (Heap.load h a) i j <> 0]) ->
     Heap.load h' a <> Heap.load h a).
Proof.
move=> hW ah ha; rewrite /Heap.mask (mask_shape hW ha) /=.
set c := mkmat m n _.
have lc : Heap.load (Heap.store h a c) a = c.
  by rewrite /Heap.load /Heap.store nth_set_nth /= eqxx.
exists (Heap.store h a c); split=> //; split.
  by rewrite /Heap.store size_set_nth (maxn_idPr _).
split; first by move=> i j im jn; rewrite lc get_mkmat.
split.
  move=> l /eqP/negbTE la.
  by rewrite /Heap.load /Heap.store nth_set_nth /= la.
case=> i [j [im jn w0 ne]]; rewrite lc => e.
by apply: ne; rewrite -e get_mkmat // /masked_contents w0 eqxx.
Qed.

End InPlace.

Lemma mask_heap3 :
  Heap.mask reservoir3 0%N heap3 =
  Ok (0%N,
      [:: [:: [:: 0; 2%:R; 3%:R]; [:: 4%:R; 0; 0]; [:: 7%:R; 0; 0]];
          [:: [:: 1; 1; 1]; [:: 1; 1; 1]; [:: 1; 1; 1]]]).
Proof. by []. Qed.

Lemma mask_in_place_witness :
  (has_shape 3 3 (_W reservoir3) /\ (0 < size heap3)%N /\
   has_shape 3 3 (Heap.load heap3 0)) /\
  exists h' : Heap.heap rat,
    Heap.mask reservoir3 0%N heap3 = Ok (0%N, h') /\
    size h' = size heap3 /\
    (forall i j, (i < 3)%N -> (j < 3)%N ->
       get 0 (Heap.load h' 0) i j =
       if get 0 (_W reservoir3) i j == 0 then 0
       else get 0 (Heap.load heap3 0) i j) /\
    (forall l, l <> 0%N -> Heap.load h' l = Heap.load heap3 l) /\
    ((exists i j, [/\ (i < 3)%N, (j < 3)%N, get 0 (_W reservoir3) i j = 0 &
                      get 0 (Heap.load heap3 0) i j <> 0]) ->
     Heap.load h' 0 <> Heap.load heap3 0).
Proof.
split; first by [].
exact: (@mask_in_place rat _ reservoir3 3 3 0%N heap3
          (erefl true) (erefl true) (erefl true)).
Defined.

(** ** The switch counts *)

Section SwitchCounts.

Variable R : archiRealFieldType.
Implicit Types (self : MSSNetwork R) (value : mat R).

Lemma set_Nb_shape self m n value :
  has_shape m n (NMSS self) -> has_shape m n value ->
  MSSNetwork_set_Nb self value =
  Ok (with_Nb self
        (mkmat m n (fun i j =>
           Nb_stored (get 0 value i j) (get 0 (NMSS self) i j)))).
Proof.
move=> hN hv; rewrite /MSSNetwork_set_Nb.
have hb : has_shape m n (map2d (fun x : R => x < 0) value).
  exact: has_shape_map2d.
rewrite (take_idx_map 0 hN) ?(where_in hb) //=.
rewrite /set_idx size_map eqxx.
rewrite (put_idx_map 0 (fun p => get 0 (NMSS self) p.1 p.2) hv) ?(where_in hb) //.
set nb1 := mkmat m n _.
have h1 : has_shape m n nb1 by apply: has_shape_mkmat.
rewrite /= /greater (broadcast2_same _ _ _ h1 hN) /=.
set over := mkmat m n _.
have ho : has_shape m n over by apply: has_shape_mkmat.
rewrite (take_idx_map 0 hN) ?(where_in ho) //= size_map eqxx.
rewrite (put_idx_map 0 (fun p => get 0 (NMSS self) p.1 p.2) h1) ?(where_in ho) //.
congr (Ok (with_Nb _ _)); apply: mkmat_ext => i j im jn.
have m0 : (0 < m)%N by case: (m) im.
rewrite !mem_where (nrows_shape ho) (ncols_shape ho) // im jn /=.
rewrite /over !get_mkmat // mem_where (nrows_shape hb) (ncols_shape hb) //.
by rewrite im jn /= (get_map2d 0 _ _ hv).
Qed.

(** C2, as the code has it. After [self.Nb = value] the stored matrix
    holds, entry by entry: the value where it lies between 0 and [NMSS];
    [NMSS] where the value exceeds [NMSS]; and [NMSS] again, not 0, where
    the value is negative. *)
Theorem set_Nb_stores self m n value :
  has_shape m n (NMSS self) -> has_shape m n value ->
  exists self' : MSSNetwork R,
    MSSNetwork_set_Nb self value = Ok self' /\
    has_shape m n (MSSNetwork_Nb self') /\
    forall i j, (i < m)%N -> (j < n)%N ->
      let v := get 0 value i j in
      let nmss := get 0 (NMSS self) i j in
      let stored := get 0 (MSSNetwork_Nb self') i j in
      (0 <= v <= nmss -> stored = v) /\
      (0 <= v -> nmss < v -> stored = nmss) /\
      (v < 0 -> stored = nmss).
Proof.
move=> hN hv; rewrite (set_Nb_shape hN hv); eexists; split; first by [].
split; first exact: has_shape_mkmat.
move=> i j im jn /=; rewrite /MSSNetwork_Nb /= get_mkmat // /Nb_stored.
move: (get 0 value i j) (get 0 (NMSS self) i j) => v nm.
split; [|split].
- by case/andP => v0 vn; rewrite (ltNge v 0) v0 /= ltNge vn.
- by move=> v0 nv; rewrite (ltNge v 0) v0 /= nv.
- by move=> ->; rewrite ltxx.
Qed.

(** ** The increment of the conductance *)

Variable exp : R -> R.

Lemma broadcast2_cases (A B C : Type) (da : A) (db : B) (f : A -> B -> C)
    (a : mat A) (b : mat B) :
  (exists r, broadcast2 da db f a b = Ok r) \/
  broadcast2 da db f a b = Raise ValueError.
Proof.
rewrite /broadcast2; case: (bdim _ _) => [m|]; last by right.
by case: (bdim _ _) => [n|]; [left; eexists | right].
Qed.

(** C4, as the code has it. Given a conductance matrix [G], [dG] never
    reaches the inverse conversion: once the quotient
    [(G - NMSS * Ga) / (Gb - Ga)] is computed, [mask] is called with that
    single argument, which is a TypeError; when the shapes do not
    broadcast, the quotient itself is a ValueError. In no case does the
    call return. *)
Theorem dG_given_G_raises self (V g : mat R) (dt : R) (return_dNb : bool)
    (sab sba : mat int) :
  dG exp self V (Some g) dt return_dNb sab sba = Raise TypeError \/
  dG exp self V (Some g) dt return_dNb sab sba = Raise ValueError.
Proof.
rewrite /dG /mul /sub /divide.
case: (broadcast2_cases 0 0 *%R (NMSS self) (_Ga self)) => [[t ->]|->] /=;
  last by right.
case: (broadcast2_cases 0 0 (fun x y => x - y) g t) => [[u ->]|->] /=;
  last by right.
case: (broadcast2_cases 0 0 (fun x y => x - y) (_Gb self) (_Ga self))
  => [[d ->]|->] /=; last by right.
by case: (broadcast2_cases 0 0 (fun x y => x / y) u d) => [[q ->]|->] /=;
  [left | right].
Qed.

Lemma dG_given_G_TypeError self n (V g : mat R) dt return_dNb sab sba :
  has_shape n n (NMSS self) -> has_shape n n (_Ga self) ->
  has_shape n n (_Gb self) -> has_shape n n g ->
  dG exp self V (Some g) dt return_dNb sab sba = Raise TypeError.
Proof.
move=> hN ha hb hg; rewrite /dG /mul /sub /divide.
rewrite (broadcast2_same _ _ _ hN ha) /=.
rewrite (broadcast2_same _ _ _ hg (has_shape_mkmat _ _ _)) /=.
rewrite (broadcast2_same _ _ _ hb ha) /=.
by rewrite (broadcast2_same _ _ _ (has_shape_mkmat _ _ _) (has_shape_mkmat _ _ _)).
Qed.

(** The two conversions as formulas: wherever [Gb <> Ga], the switch count
    is recovered from the conductance. *)
Lemma conductance_shape n (nb ga gb nmss : mat R) :
  has_shape n n nb -> has_shape n n ga -> has_shape n n gb ->
  has_shape n n nmss ->
  conductance nb ga gb nmss =
  Ok (mkmat n n (fun i j =>
        get 0 nb i j * (get 0 gb i j - get 0 ga i j) +
        get 0 nmss i j * get 0 ga i j)).
Proof.
move=> hn ha hb hm; rewrite /conductance /sub /mul /add.
rewrite (broadcast2_same _ _ _ hb ha) /=.
rewrite (broadcast2_same _ _ _ hn (has_shape_mkmat _ _ _)) /=.
rewrite (broadcast2_same _ _ _ hm ha) /=.
rewrite (broadcast2_same _ _ _ (has_shape_mkmat _ _ _) (has_shape_mkmat _ _ _)).
by congr Ok; apply: mkmat_ext => i j im jn; rewrite !get_mkmat.
Qed.

Lemma switch_count_of_conductance n (nb ga gb nmss G : mat R) i j :
  has_shape n n nb -> has_shape n n ga -> has_shape n n gb ->
  has_shape n n nmss -> conductance nb ga gb nmss = Ok G ->
  (i < n)%N -> (j < n)%N -> get 0 gb i j <> get 0 ga i j ->
  (get 0 G i j - get 0 nmss i j * get 0 ga i j) /
  (get 0 gb i j - get 0 ga i j) = get 0 nb i j.
Proof.
move=> hn ha hb hm; rewrite (conductance_shape hn ha hb hm) => -[<-] im jn ne.
rewrite get_mkmat // addrK mulfK // subr_eq0.
exact/eqP.
Qed.

End SwitchCounts.

(** ** Reading a result back *)

Lemma bind_ok (A B : Type) (c : result A) (k : A -> result B) (r : B) :
  (x <-- c ;; k x) = Ok r -> exists2 a, c = Ok a & k a = Ok r.
Proof. by case: c => [a|e] //= kr; exists a. Qed.

Lemma foldl_raise (A B : Type) (f : result A -> B -> result A) e s :
  (forall b, f (Raise e) b = Raise e) -> foldl f (Raise e) s = Raise e.
Proof. by move=> fe; elim: s => //= b s; rewrite fe. Qed.

(** ** Writing zeros *)

Section Zeros.

Variable T : nzRingType.
Implicit Types (a c : mat T).


Lemma get_mkmat_default m n (f : nat -> nat -> T) i j :
  get 0 (mkmat m n f) i j = if (i < m)%N && (j < n)%N then f i j else 0.
Proof.
case: (ltnP i m) => im /=; last first.
  by rewrite /get (@nth_default _ _ (mkmat m n f)) ?size_mkmat // nth_nil.
case: (ltnP j n) => jn; first by rewrite get_mkmat.
by rewrite /get /mkmat nth_mkseq // nth_default // size_mkseq.
Qed.



End Zeros.

Section MaskZero.

Variable R : realFieldType.
Variable T : nzRingType.


End MaskZero.

(** ** Property matrices *)

Section Properties.

Variable R : realFieldType.
Implicit Types (self : MemristiveReservoir R) (sample : mat R).

Lemma make_symmetric_square (T : nzRingType) n (a : mat T) copy_lower :
  has_shape n n a ->
  make_symmetric a copy_lower = Ok (mkmat n n (mirrored copy_lower a)).
Proof.
move=> ha; rewrite /make_symmetric /add /tril1 /triu1.
rewrite (nrows_shape ha) (ncols_square ha).
case: copy_lower; rewrite (transpose_square 0 (has_shape_mkmat _ _ _));
  rewrite (broadcast2_same _ _ _ (has_shape_mkmat _ _ _)
             (has_shape_mkmat _ _ _));
  by congr Ok; apply: mkmat_ext => i j im jn; rewrite /mirrored !get_mkmat.
Qed.



End Properties.

(** ** The masking invariant *)

Section MaskingInvariant.

Variable R : archiRealFieldType.
Variable exp : R -> R.
Implicit Types (self : MSSNetwork R) (W : mat int).





End MaskingInvariant.

Section MSSConstruction.

Variable R : archiRealFieldType.
Variable exp : R -> R.

Variables (vA0 vB0 tc0 NMSS0 Woff0 Won0 Nb0 noise : R).
Variables (n : nat) (w : mat R) (i_nodes e_nodes gr_nodes : seq nat).
Variables (s1 s2 s3 s4 s5 s6 s7 : mat R).

Hypothesis hw : has_shape n n w.
Hypothesis hs1 : has_shape n n s1.
Hypothesis hs2 : has_shape n n s2.
Hypothesis hs3 : has_shape n n s3.
Hypothesis hs4 : has_shape n n s4.
Hypothesis hs5 : has_shape n n s5.
Hypothesis hs6 : has_shape n n s6.
Hypothesis hs7 : has_shape n n s7.



End MSSConstruction.

Section MaskingTheorem.

Variable R : archiRealFieldType.
Variable exp : R -> R.



End MaskingTheorem.


Lemma NMSS_mss3 :
  NMSS mss3 = [:: [:: 0; 4%:R; 7%:R]; [:: 4%:R; 0; 0]; [:: 7%:R; 0; 0]].
Proof. by apply/eqP. Qed.

Lemma set_Nb_value3 :
  exists2 self', MSSNetwork_set_Nb mss3 value3 = Ok self' &
    MSSNetwork_Nb self' =
    [:: [:: 0; 4%:R; 7%:R]; [:: 2%:R; 0; 0]; [:: 7%:R; 0; 0]].
Proof.
rewrite (@set_Nb_shape _ mss3 3 3) //; eexists; first by [].
by apply/eqP.
Qed.

Lemma set_Nb_stores_witness :
  (has_shape 3 3 (NMSS mss3) /\ has_shape 3 3 value3) /\
  exists self' : MSSNetwork rat,
    MSSNetwork_set_Nb mss3 value3 = Ok self' /\
    has_shape 3 3 (MSSNetwork_Nb self') /\
    forall i j, (i < 3)%N -> (j < 3)%N ->
      let v := get 0 value3 i j in
      let nmss := get 0 (NMSS mss3) i j in
      let stored := get 0 (MSSNetwork_Nb self') i j in
      (0 <= v <= nmss -> stored = v) /\
      (0 <= v -> nmss < v -> stored = nmss) /\
      (v < 0 -> stored = nmss).
Proof.
split; first by [].
exact: (@set_Nb_stores _ mss3 3 3 value3 (erefl true) (erefl true)).
Defined.


(** ** Linear algebra on arrays *)

Section LinAlgFacts.

Variable R : realFieldType.
Implicit Types (a : mat R) (v : seq R).

Lemma get_mat_of_mx m n (M : 'M[R]_(m, n)) (i : 'I_m) (j : 'I_n) :
  get 0 (mat_of_mx M) i j = M i j.
Proof. by rewrite /mat_of_mx get_mkmat // !valK. Qed.

Lemma mx_of_mat_of_mx m n (M : 'M[R]_(m, n)) : mx_of_mat m n (mat_of_mx M) = M.
Proof. by apply/matrixP => i j; rewrite mxE get_mat_of_mx. Qed.

Lemma inv_unit k a :
  has_shape k k a -> mx_of_mat k k a \in unitmx ->
  inv a = Ok (mat_of_mx (invmx (mx_of_mat k k a))).
Proof.
move=> ha; rewrite /inv (ncols_square ha) (nrows_shape ha) eqxx /=.
by move=> ->.
Qed.

Lemma inv_singular k a :
  has_shape k k a -> mx_of_mat k k a \notin unitmx ->
  inv a = Raise LinAlgError.
Proof.
move=> ha; rewrite /inv (ncols_square ha) (nrows_shape ha) eqxx /=.
by move/negbTE->.
Qed.

Lemma dot_mv_shape m k a v :
  has_shape m k a -> size v = k ->
  dot_mv a v =
  Ok (mkseq (fun i => \sum_(0 <= j < k) get 0 a i j * nth 0 v j) m).
Proof.
move=> ha sv; rewrite /dot_mv (nrows_shape ha) sv.
have -> : (m == 0%N) || (ncols a == k).
  by case: (m) ha => // m' ha; rewrite (ncols_shape ha) // eqxx orbT.
congr Ok; apply: (@eq_from_nth _ 0).
  by rewrite size_map size_mkseq (size_shape ha).
move=> i; rewrite size_map (size_shape ha) => im.
by rewrite (nth_map [::]) ?(size_shape ha) // nth_mkseq.
Qed.

Lemma take_ix_shape n a rs cs :
  has_shape n n a -> all (fun i => i < n)%N rs -> all (fun j => j < n)%N cs ->
  take_ix a rs cs =
  Ok (mkmat (size rs) (size cs)
        (fun p q => get 0 a (nth 0%N rs p) (nth 0%N cs q))).
Proof.
move=> ha hr hc; rewrite /take_ix (nrows_shape ha) (ncols_square ha) hr hc /=.
congr Ok; apply: (@eq_from_nth _ [::]); first by rewrite size_map size_mkmat.
move=> p; rewrite size_map => pr.
rewrite (nth_map 0%N) // nth_mkseq //.
apply: (@eq_from_nth _ 0); first by rewrite size_map size_mkseq.
by move=> q; rewrite size_map => qc; rewrite (nth_map 0%N) // nth_mkseq.
Qed.

End LinAlgFacts.

(** ** Kirchhoff's law *)

Section Kirchhoff.

Variable R : realFieldType.
Variable self : MemristiveReservoir R.
Variables (G0 : mat R) (V_E V_GR0 : seq R).

Let n := _n_nodes self.
Let k := size (_I self).
Let node (s : seq nat) (p : nat) : nat := nth 0%N s p.

Hypothesis hG : has_shape n n G0.
Hypothesis hI : all (fun i => i < n)%N (_I self).
Hypothesis hE : all (fun i => i < n)%N (_E self).
Hypothesis hGR : all (fun i => i < n)%N (_GR self).
Hypothesis sE : size V_E = size (_E self).
Hypothesis sGR : size V_GR0 = size (_GR self).

(** The matrix [A = N - G] of [solveV_I]. *)
Lemma admittance_matrix :
  sub (fill_diagonal_vec (zeros R n n) (sum_axis1 G0)) G0 =
  Ok (mkmat n n (admittance G0)).
Proof.
have hZ : has_shape n n (zeros R n n) by apply: has_shape_mkmat.
rewrite /fill_diagonal_vec (nrows_shape hZ) (ncols_square hZ) /sub.
rewrite (broadcast2_same _ _ _ (has_shape_mkmat _ _ _) hG); congr Ok.
apply: mkmat_ext => i j im jn; rewrite get_mkmat // /admittance.
case: eqP => [_|_]; last by rewrite get_mkmat.
rewrite /sum_axis1 size_map (size_shape hG) modn_small //.
by rewrite (nth_map [::]) ?(size_shape hG).
Qed.

Let rhs := injected self G0 V_E V_GR0.

Let A_II : 'M[R]_k :=
  \matrix_(p, q) admittance G0 (node (_I self) p) (node (_I self) q).

Lemma solveV_I_unit :
  A_II \in unitmx ->
  solveV_I self V_E (Some V_GR0) (Some G0) =
  Ok (mkseq (fun p =>
        \sum_(0 <= q < k)
           get 0 (mat_of_mx (invmx A_II)) p q * rhs q) k).
Proof.
move=> uA; rewrite /solveV_I -/n admittance_matrix /=.
have hA := has_shape_mkmat n n (admittance G0).
rewrite (take_ix_shape hA hI hI) /= -/k.
set AII := mkmat k k _.
have hAII : has_shape k k AII by apply: has_shape_mkmat.
have eA : mx_of_mat k k AII = A_II.
  apply/matrixP => p q; rewrite !mxE get_mkmat // get_mkmat //.
  - exact: (allP hI _ (mem_nth _ _)).
  - exact: (allP hI _ (mem_nth _ _)).
rewrite (inv_unit hAII) eA //=.
rewrite (take_ix_shape hG hI hE) /= -/k.
rewrite (dot_mv_shape (has_shape_mkmat _ _ _) sE) /=.
rewrite (take_ix_shape hG hI hGR) /= -/k.
rewrite (dot_mv_shape (has_shape_mkmat _ _ _) sGR) /=.
rewrite broadcast1_same ?size_mkseq //=.
have hInv : has_shape k k (mat_of_mx (invmx A_II)) by apply: has_shape_mkmat.
rewrite (dot_mv_shape hInv) ?size_mkseq //; congr Ok.
apply: (@eq_from_nth _ 0); rewrite !size_mkseq // => p pk.
rewrite !nth_mkseq //; apply: eq_big_nat => q /andP[_ qk].
rewrite !nth_mkseq // /rhs /injected; congr (_ * (_ + _)).
  by apply: eq_big_nat => e /andP[_ ee]; rewrite get_mkmat.
by apply: eq_big_nat => g /andP[_ gg]; rewrite get_mkmat.
Qed.

Lemma solveV_I_equation (V_I : seq R) :
  A_II \in unitmx ->
  solveV_I self V_E (Some V_GR0) (Some G0) = Ok V_I ->
  size V_I = k /\
  forall p, (p < k)%N ->
    \sum_(0 <= q < k)
       admittance G0 (node (_I self) p) (node (_I self) q) * nth 0 V_I q =
    rhs p.
Proof.
move=> uA; rewrite (solveV_I_unit uA) => -[<-]; rewrite size_mkseq.
split=> // p pk.
pose h : 'cV[R]_k := \col_q rhs q.
have := mulKVmx uA h => /matrixP/(_ (Ordinal pk) 0).
rewrite !mxE /= => <-; rewrite big_mkord; apply: eq_bigr => q _.
rewrite !mxE nth_mkseq // big_mkord; congr (_ * _).
by apply: eq_bigr => j _; rewrite !mxE get_mat_of_mx.
Qed.

End Kirchhoff.

Section KirchhoffClaim.

Variable R : realFieldType.

Lemma solveV_I_defaults (self : MemristiveReservoir R) V_E V_GR G G0 :
  (if G is Some g then Some g else _G self) = Some G0 ->
  solveV_I self V_E V_GR G =
  solveV_I self V_E
    (Some (if V_GR is Some v then v else nseq (_n_grounded_nodes self) 0))
    (Some G0).
Proof. by rewrite /solveV_I; case: V_GR => [v|]; case: G => [g|] /= [->]. Qed.

Lemma admittance_zero_diagonal (G0 : mat R) i j :
  get 0 G0 i i = 0 ->
  admittance G0 i j =
  if i == j then \sum_(x <- nth [::] G0 i) x else - get 0 G0 i j.
Proof.
by rewrite /admittance; case: eqP => [<- ->|_ _]; rewrite ?subr0 ?sub0r.
Qed.

Lemma solveV_I_triangle :
  solveV_I (triangle R) [:: 1] (Some [:: 0]) None = Ok [:: 2^-1].
Proof.
pose G1 : mat R := [:: [:: 0; 1; 1]; [:: 1; 0; 1]; [:: 1; 1; 0]].
have e2 : admittance G1 0 0 = 2.
  by rewrite /admittance /= !big_cons big_nil subr0 add0r addr0.
have uA : (\matrix_(p < 1, q < 1)
             admittance G1 (nth 0%N [:: 0%N] p) (nth 0%N [:: 0%N] q))
          \in unitmx.
  rewrite unitmxE det_mx11 mxE /= e2 unitfE.
  by rewrite (pnatr_eq0 R 2).
rewrite (@solveV_I_defaults _ _ _ _ G1) //=.
case E: (solveV_I _ _ _ _) => [V_I|e]; last first.
  by move: E; rewrite (@solveV_I_unit _ (triangle R) G1).
have [] := @solveV_I_equation _ (triangle R) G1 [:: 1] [:: 0] _ _ _ _ _ _
             V_I uA E => //.
case: V_I {E} => [|x [|y V_I]] //= _ /(_ 0%N isT).
rewrite /injected /= !big_nat1 /= e2 mulr1 mulr0 addr0 => h.
congr (Ok [:: _]); apply: (mulfI (x := 2)); first by rewrite (pnatr_eq0 R 2).
by rewrite h divff // (pnatr_eq0 R 2).
Qed.

(** C1. Whenever the internal block [A_II] of the admittance matrix is
    invertible, [solveV_I] returns the vector [V_I] with
    [A_II . V_I = G[I,E] . V_E + G[I,GR] . V_GR], where [A = N - G] has the
    entries [admittance G]: for a conductance matrix (zero diagonal) the
    row sums of [G] on the diagonal and [-G] off it. [V_GR] and [G] may be
    given or left to their defaults (zeros, and the stored [_G]). On the
    triangle with unit conductances, [V_E = 1] and [V_GR = 0], the
    internal voltage is 1/2. *)
Theorem solveV_I_kirchhoff :
  (forall (self : MemristiveReservoir R) (G0 : mat R) (V_E : seq R)
          (V_GR : option (seq R)) (G : option (mat R)),
     let n := _n_nodes self in
     let k := size (_I self) in
     let V_GR0 :=
       if V_GR is Some v then v else nseq (_n_grounded_nodes self) 0 in
     (if G is Some g then Some g else _G self) = Some G0 ->
     has_shape n n G0 ->
     [/\ all (fun i => i < n)%N (_I self), all (fun i => i < n)%N (_E self) &
         all (fun i => i < n)%N (_GR self)] ->
     size V_E = size (_E self) -> size V_GR0 = size (_GR self) ->
     (\matrix_(p < k, q < k)
        admittance G0 (nth 0%N (_I self) p) (nth 0%N (_I self) q))
       \in unitmx ->
     sub (fill_diagonal_vec (zeros R n n) (sum_axis1 G0)) G0 =
       Ok (mkmat n n (admittance G0)) /\
     (forall i j, get 0 G0 i i = 0 ->
        admittance G0 i j =
        if i == j then \sum_(x <- nth [::] G0 i) x else - get 0 G0 i j) /\
     exists V_I : seq R,
       solveV_I self V_E V_GR G = Ok V_I /\ size V_I = k /\
       forall p, (p < k)%N ->
         \sum_(0 <= q < k)
            admittance G0 (nth 0%N (_I self) p) (nth 0%N (_I self) q) *
            nth 0 V_I q =
         injected self G0 V_E V_GR0 p) /\
  solveV_I (triangle R) [:: 1] (Some [:: 0]) None = Ok [:: 2^-1].
Proof.
split; last exact: solveV_I_triangle.
move=> self G0 V_E V_GR G n k V_GR0 eG hG [hI hE hGR] sE sGR uA.
split; first exact: admittance_matrix.
split; first by move=> i j; apply: admittance_zero_diagonal.
rewrite (solveV_I_defaults _ _ eG) -/V_GR0.
rewrite (solveV_I_unit hG hI hE hGR sE sGR uA); eexists; split; first by [].
exact: (solveV_I_equation hG hI hE hGR sE sGR uA
          (solveV_I_unit hG hI hE hGR sE sGR uA)).
Qed.

End KirchhoffClaim.

Lemma solveV_I_kirchhoff_witness :
  let self := triangle rat in
  let G0 : mat rat := [:: [:: 0; 1; 1]; [:: 1; 0; 1]; [:: 1; 1; 0]] in
  ((if None is Some g then Some g else _G self) = Some G0 /\
   has_shape 3 3 G0 /\
   [/\ all (fun i => i < 3)%N (_I self), all (fun i => i < 3)%N (_E self) &
       all (fun i => i < 3)%N (_GR self)] /\
   size [:: 1 : rat] = size (_E self) /\
   size [:: 0 : rat] = size (_GR self) /\
   (\matrix_(p < 1, q < 1)
      admittance G0 (nth 0%N (_I self) p) (nth 0%N (_I self) q))
     \in unitmx) /\
  exists V_I : seq rat,
    solveV_I self [:: 1] (Some [:: 0]) None = Ok V_I /\ size V_I = 1%N /\
    forall p, (p < 1)%N ->
      \sum_(0 <= q < 1)
         admittance G0 (nth 0%N (_I self) p) (nth 0%N (_I self) q) *
         nth 0 V_I q =
      injected self G0 [:: 1] [:: 0] p.
Proof.
move=> self G0.
have uA : (\matrix_(p < 1, q < 1)
             admittance G0 (nth 0%N (_I self) p) (nth 0%N (_I self) q))
          \in unitmx.
  rewrite unitmxE det_mx11 mxE /= /admittance /= !big_cons big_nil.
  by rewrite unitfE.
split; first by do !split.
exact: (proj2 (proj2 (proj1 (solveV_I_kirchhoff rat)
          self G0 [:: 1] (Some [:: 0]) None (erefl _) (erefl true)
          (And3 (erefl true) (erefl true) (erefl true))
          (erefl _) (erefl _) uA))).
Defined.

(** ** The fixed-point iteration *)

Section Iteration.

Variable R : realFieldType.
Implicit Types (self : reservoir_object R) (V_E : seq R) (tol : R).

Lemma iterate_loop_cap self V_E tol k (V_I_0 G_0 : pyval R) :
  turns_without_convergence self V_E tol k V_I_0 G_0 ->
  iterate_loop self V_E tol k V_I_0 G_0 = Ok None.
Proof.
elim: k V_I_0 G_0 => [|k IH] V_I_0 G_0 //=.
case: (iterate_body _ _ _ _ _) => [[[V_I_1 G_1] stop]|//] /=.
by case: stop => //= /IH.
Qed.

Lemma iterate_loop_step self V_E tol k (V_I_0 G_0 : pyval R) :
  iterate_loop self V_E tol k.+1 V_I_0 G_0 =
  (r <-- iterate_body self V_E tol V_I_0 G_0 ;;
   let: (V_I_1, G_1, stop) := r in
   if stop then Ok (Some (V_I_1, G_1))
   else iterate_loop self V_E tol k V_I_1 G_1).
Proof. by []. Qed.

(** C5 (as amended). When the loop of [iterate] has run its [iters] turns
    and none of them has passed the convergence test, the loop is left by
    [break], the end of the function is reached and the call returns
    [None]: no exception is raised, and neither the last [V_I] and [G] nor
    any flag is returned. *)
Theorem iterate_cap_returns_None self V_E tol (iters : int) :
  turns_without_convergence self V_E tol (if iters is Posz k then k else 0%N)
    (PyStr "guess") (PyStr "guess") ->
  iterate self V_E tol iters = Ok None.
Proof. exact: iterate_loop_cap. Qed.

Lemma iterate_body_stop self V_E tol (V_I_0 G_0 : pyval R) V d G_1 V_I_1
    eV eG m :
  self_getV self V_I_0 V_E = Ok V ->
  self_dG self V G_0 = Ok d ->
  py_binop +%R (self_G self) d = Ok G_1 ->
  self_solveV_I self V_E = Ok V_I_1 ->
  self_getError self V_I_0 V_I_1 = Ok eV ->
  self_getError self G_0 G_1 = Ok eG ->
  masked_max eV (self_W self) = Ok m ->
  iterate_body self V_E tol V_I_0 G_0 = Ok (V_I_1, G_1, below_tol m tol).
Proof.
move=> hV hd hG hI heV heG hm.
rewrite /iterate_body hV /= hd /= hG /= hI /= heV /= heG /= /converged hm /=.
by case: m {hm} => [x|] //=; rewrite ltxx.
Qed.

(** C6, as the code has it. A turn of the loop in which the voltage error
    is below [tol] ends the iteration and returns, whatever the
    conductance error [eG] of that turn is: the test takes the maximum of
    the voltage error with itself. *)
Theorem iterate_stops_on_voltage_error_alone self V_E tol left
    (V_I_0 G_0 : pyval R) V d G_1 V_I_1 eV eG m :
  self_getV self V_I_0 V_E = Ok V ->
  self_dG self V G_0 = Ok d ->
  py_binop +%R (self_G self) d = Ok G_1 ->
  self_solveV_I self V_E = Ok V_I_1 ->
  self_getError self V_I_0 V_I_1 = Ok eV ->
  self_getError self G_0 G_1 = Ok eG ->
  masked_max eV (self_W self) = Ok (Some m) -> m < tol ->
  iterate_loop self V_E tol left.+1 V_I_0 G_0 = Ok (Some (V_I_1, G_1)).
Proof.
move=> hV hd hG hI heV heG hm mt /=.
by rewrite (iterate_body_stop tol hV hd hG hI heV heG hm) /= mt.
Qed.

(** The run of [iterate] on the object [duck]: the first turn compares the
    placeholder with the solved voltage and goes on; the second finds the
    voltage unchanged and returns, while the conductance has moved from 2
    to 3. *)
Lemma iterate_duck tol k :
  0 < tol -> tol <= 2 ->
  iterate (duck R) [:: 1] tol (Posz k.+2) =
  Ok (Some (PyVec [:: 1], PyMat [:: [:: 1 + (1 + 1)]])).
Proof.
move=> t0 t2.
have b1 := @iterate_body_stop (duck R) [:: 1] tol (PyStr "guess")
  (PyStr "guess") _ _ (PyMat [:: [:: 1 + 1]]) _ _ _ (Some 2)
  (erefl _) (erefl _) (erefl _) (erefl _) (erefl _) (erefl _) (erefl _).
have b2 := @iterate_body_stop (duck R) [:: 1] tol (PyVec [:: 1])
  (PyMat [:: [:: 1 + 1]]) _ _ (PyMat [:: [:: 1 + (1 + 1)]]) _ _ _
  (Some (getError1 1 1))
  (erefl _) (erefl _) (erefl _) (erefl _) (erefl _) (erefl _) (erefl _).
rewrite /iterate iterate_loop_step b1 /Py.bind /below_tol ltNge t2.
rewrite iterate_loop_step b2 /Py.bind /below_tol.
by rewrite /getError1 subrr normr0 mulr0 mul0r t0.
Qed.

Lemma getError1_duck : getError1 (1 + 1) (1 + (1 + 1)) = 2 / 5%:R :> R.
Proof.
rewrite /getError1.
have -> : 1 + (1 + 1) - (1 + 1) = 1 :> R by ring.
have p3 : 0 <= 1 + (1 + 1) :> R by lra.
have p2 : 0 <= 1 + 1 :> R by lra.
rewrite normr1 mulr1 (ger0_norm p3) (ger0_norm p2); congr (_ / _).
by ring.
Qed.

Lemma getError_duck :
  getError (PyMat [:: [:: 1 + 1 : R]]) (PyMat [:: [:: 1 + (1 + 1)]]) =
  Ok (PyMat [:: [:: getError1 (1 + 1) (1 + (1 + 1))]]).
Proof. by []. Qed.

End Iteration.

Section IterationOnTheClasses.

Variable R : archiRealFieldType.
Variable exp : R -> R.

Lemma tol_iterate_default_bounds (F : realFieldType) :
  [/\ 0 < tol_iterate_default F, tol_iterate_default F <= 2 &
      tol_iterate_default F < 2 / 5%:R].
Proof. by rewrite /tol_iterate_default; split; lra. Qed.

(** On an [MSSNetwork] the first turn of [iterate] hands the placeholder
    ['guess'] to [getV], which indexes it as an array: a TypeError. *)
Lemma iterate_MSSNetwork_TypeError (self : MSSNetwork R) sab sba V_E tol k :
  iterate (MSSNetwork_object exp self sab sba) V_E tol (Posz k.+1) =
  Raise TypeError.
Proof. by []. Qed.

Lemma iterate_no_turn (self : reservoir_object R) V_E tol (iters : int) :
  iters <= 0 -> iterate self V_E tol iters = Ok None.
Proof. by case: iters => [[|k]|k]. Qed.

End IterationOnTheClasses.

Lemma iterate_cap_returns_None_witness :
  turns_without_convergence (duck rat) [:: 1] 0 2
    (PyStr "guess") (PyStr "guess") /\
  iterate (duck rat) [:: 1] 0 2 = Ok None.
Proof.
split; first by [].
exact: (@iterate_cap_returns_None _ (duck rat) [:: 1] 0 2 (erefl true)).
Defined.

(** C5 fails as stated. With [tol = 0] no turn can pass the test: on the
    object [duck] two turns run, each computing a voltage and a
    conductance, and the call returns [None]. On a network of the class,
    [iters = 0] reaches the cap at once, and the call returns [None]. *)
Lemma iterate_cap_counterexample :
  (turns_without_convergence (duck rat) [:: 1] 0 2
     (PyStr "guess") (PyStr "guess") /\
   iterate (duck rat) [:: 1] 0 2 = Ok None) /\
  iterate (MSSNetwork_object (fun _ : rat => 1) mss3 [::] [::]) [:: 1]
    (tol_iterate_default rat) 0 = Ok None.
Proof. by []. Qed.

Lemma iterate_stops_on_voltage_error_alone_witness :
  let self := duck rat in
  let V_I_0 : pyval rat := PyVec [:: 1] in
  let G_0 : pyval rat := PyMat [:: [:: 1 + 1]] in
  let G_1 : pyval rat := PyMat [:: [:: 1 + (1 + 1)]] in
  let eV : pyval rat := PyVec [:: getError1 1 1] in
  let eG : pyval rat := PyMat [:: [:: getError1 (1 + 1) (1 + (1 + 1))]] in
  (self_getV self V_I_0 [:: 1] = Ok (PyMat [:: [:: 0]]) /\
   self_dG self (PyMat [:: [:: 0]]) G_0 = Ok G_0 /\
   py_binop +%R (self_G self) G_0 = Ok G_1 /\
   self_solveV_I self [:: 1] = Ok V_I_0 /\
   self_getError self V_I_0 V_I_0 = Ok eV /\
   self_getError self G_0 G_1 = Ok eG /\
   masked_max eV (self_W self) = Ok (Some (getError1 1 1)) /\
   getError1 1 1 < 10%:R^-1 :> rat) /\
  iterate_loop self [:: 1] (10%:R^-1) 9 V_I_0 G_0 = Ok (Some (V_I_0, G_1)).
Proof.
move=> self V_I_0 G_0 G_1 eV eG.
split; first by do !split.
exact: (@iterate_stops_on_voltage_error_alone _ self [:: 1] (10%:R^-1) 8
          V_I_0 G_0 _ _ G_1 V_I_0 eV eG (getError1 1 1)
          (erefl _) (erefl _) (erefl _) (erefl _) (erefl _) (erefl _)
          (erefl _) (erefl true)).
Defined.

(** The run that C6 excludes, with the defaults [tol = 1e-5] and
    [iters = 10]: [iterate] returns at the second turn, when the relative
    change of the conductance, from 2 to 3, is 2/5. *)
Lemma iterate_duck_defaults :
  iterate (duck rat) [:: 1] (tol_iterate_default rat) iters_default =
    Ok (Some (PyVec [:: 1], PyMat [:: [:: 1 + (1 + 1)]])) /\
  getError (PyMat [:: [:: 1 + 1 : rat]]) (PyMat [:: [:: 1 + (1 + 1)]]) =
    Ok (PyMat [:: [:: 2 / 5%:R]]) /\
  tol_iterate_default rat < 2 / 5%:R.
Proof.
have [t0 t2 t25] := tol_iterate_default_bounds rat.
split; first exact: (@iterate_duck _ _ 8 t0 t2).
split; last exact: t25.
by rewrite getError_duck getError1_duck.
Qed.

(** ** Further properties of the connectivity normalisation *)

Section SetWMore.

Variable R : realFieldType.
Implicit Types (w : mat R).

(** [setW] sees neither the direction nor the weight of a connection: a
    square input and its transpose give the same mask, and so do two
    square inputs with the same non-zero positions. *)
Theorem setW_direction_and_weight_blind n w w' :
  has_shape n n w -> has_shape n n w' ->
  (forall i j, (i < n)%N -> (j < n)%N ->
     (get 0 w' i j == 0) = (get 0 w i j == 0)) ->
  setW (transpose 0 w) = setW w /\ setW w' = setW w.
Proof.
move=> hw hw' same.
have hT : has_shape n n (transpose 0 w).
  by rewrite (transpose_square 0 hw); apply: has_shape_mkmat.
rewrite (setW_square hT) (setW_square hw) (setW_square hw').
split; congr Ok; apply: mkmat_ext => i j im jn; rewrite /undirected /edge.
  by rewrite (transpose_square 0 hw) !get_mkmat // orbC.
by rewrite !same.
Qed.

(** Normalising a mask again changes nothing. *)
Theorem setW_idempotent n w :
  has_shape n n w ->
  exists2 W : mat int,
    setW w = Ok W & setW (map2d (fun z : int => z%:~R : R) W) = Ok W.
Proof.
move=> hw; rewrite (setW_square hw); exists (mkmat n n (undirected w)) => //.
have hW := has_shape_mkmat n n (undirected w).
have hr : has_shape n n (map2d (fun z : int => z%:~R : R)
                           (mkmat n n (undirected w))).
  exact: has_shape_map2d.
have E i j : (((undirected w i j)%:~R : R) != 0) =
             (i != j) && (edge w i j || edge w j i).
  rewrite /undirected; case: (i == j) => /=; first by rewrite eqxx.
  by case: (_ || _); rewrite /= ?oner_eq0 ?eqxx.
rewrite (setW_square hr); congr Ok; apply: mkmat_ext => i j im jn.
rewrite {1}/undirected /edge !(get_map2d 0 _ _ hW) // !get_mkmat // !E.
rewrite /undirected (eq_sym j i); case: (i == j) => //=.
by rewrite [edge w j i || _]orbC orbb.
Qed.

(** A single row is accepted when every entry after the first is zero,
    and comes back as a row of zeros: the row broadcasts against its
    transpose and the symmetry test passes. With a non-zero entry after
    the first the test fails, and indexing the transposed column with the
    positions above the diagonal is an IndexError. *)
Theorem setW_single_row (r : seq R) :
  setW [:: r] =
  if all (fun x => x == 0) (behead r) then Ok [:: nseq (size r) 0]
  else Raise IndexError.
Proof.
case: r => [|x [|y s]]; [by rewrite setW_bool | by rewrite setW_bool |].
move: [:: x, y & s] (isT : 1 < size [:: x, y & s])%N => r r2 {x y s}.
set n := size r; rewrite setW_bool.
have n0 : (0 < n)%N by exact: ltnW.
have n1 : (n == 1%N) = false by rewrite /n; case: (size r) r2 => [|[|k]].
pose bj j := (j != 0%N) && (nth 0 r j != 0).
have hb : fill_diagonal false (astype_bool [:: r]) false = [:: mkseq bj n].
  rewrite /fill_diagonal.
  have -> : nrows (astype_bool [:: r]) = 1%N by [].
  have -> : ncols (astype_bool [:: r]) = n by rewrite /ncols /= size_map.
  rewrite /mkmat /mkseq /=; congr [:: _]; apply/eq_in_map => j.
  rewrite mem_iota /= add0n => jn.
  rewrite /bj (eq_sym 0%N j); case: eqP => //= _.
  by rewrite /get /= (nth_map 0).
lazy zeta; rewrite hb {hb}.
have hT : transpose false [:: mkseq bj n] = mkmat n 1 (fun i _ => bj i).
  rewrite /transpose /ncols /nrows /= size_mkseq; apply: mkmat_ext => i j im.
  by rewrite ltnS leqn0 => /eqP->; rewrite /get /= nth_mkseq.
have hc : broadcast2 false false (fun u v : bool => u == v)
            [:: mkseq bj n] (mkmat n 1 (fun i _ => bj i)) =
          Ok (mkmat n n (fun i j => bj j == bj i)).
  have b1 : bdim 1 n = Some n by rewrite /bdim eq_sym n1.
  have b2 : bdim n 1 = Some n by rewrite /bdim n1.
  have c1 : ncols [:: mkseq bj n] = n by rewrite /ncols /= size_mkseq.
  rewrite /broadcast2 (ncols_shape (has_shape_mkmat n 1 _)) // c1.
  rewrite [nrows (mkmat _ _ _)]/nrows size_mkmat [nrows _]/= b1 b2.
  congr Ok; apply: mkmat_ext => i j im jn.
  rewrite /bidx eqxx n1 get_mkmat //.
  by rewrite /get /= nth_mkseq.
have hall : all (all id) (mkmat n n (fun i j => bj j == bj i)) =
            all (fun z => z == 0) (behead r).
  have sb : size (behead r) = n.-1 by rewrite size_behead.
  apply/all_mkmat/(all_nthP 0) => [h j|h i j im jn].
    rewrite sb => js; have jn : (j.+1 < n)%N by rewrite -(prednK n0).
    have := h 0%N j.+1 n0 jn.
    by rewrite /bj /= nth_behead => /eqP/negbFE.
  suff z k : (k < n)%N -> bj k = false by rewrite !z.
  case: k => // k ks; rewrite /bj /= -nth_behead h //.
  by rewrite sb -ltnS (prednK n0).
rewrite hT hc /bind hall -/(bind _ _); case hz: (all _ _); rewrite [~~ _]/=.
  rewrite /bool_astype_int /map2d /=; congr (Ok [:: _]).
  apply: (@eq_from_nth _ 0); first by rewrite /= size_map size_mkseq size_nseq.
  move=> j; rewrite size_map size_mkseq => jn.
  rewrite (nth_map false) ?size_mkseq // nth_mkseq // nth_nseq jn.
  case: j jn => // j js; rewrite /bj /= -nth_behead.
  have /(all_nthP 0)-> // := hz.
  by rewrite size_behead -ltnS (prednK n0).
have hs : has_shape 1 n (bool_astype_int [:: mkseq bj n]).
  by rewrite /has_shape /= size_map size_mkseq eqxx.
rewrite /triu_indices_from (nrows_shape hs) (ncols_shape hs) //.
rewrite (take_idx_map 0 hs (triu_indices_in 1 n)) transpose_bool hT.
rewrite /triu_indices /= cats0.
have -> : (n - 1)%N = (n - 2).+1.
  by move: r2; rewrite -/n; case: (n) => [|[|m]] // _; rewrite subn1 subn2.
rewrite [take_idx _ _ _]/= /bool_astype_int ncols_map2d.
by rewrite (ncols_shape (has_shape_mkmat n 1 _)) // andbF.
Qed.

End SetWMore.

Lemma setW_direction_and_weight_blind_witness :
  (has_shape 3 3 w_directed /\ has_shape 3 3 w_reweighted /\
   forall i j, (i < 3)%N -> (j < 3)%N ->
     (get 0 w_reweighted i j == 0) = (get 0 w_directed i j == 0)) /\
  (setW (transpose 0 w_directed) = setW w_directed /\
   setW w_reweighted = setW w_directed).
Proof.
have same i j : (i < 3)%N -> (j < 3)%N ->
    (get 0 w_reweighted i j == 0) = (get 0 w_directed i j == 0).
  by case: i => [|[|[|i]]] //; case: j => [|[|[|j]]].
split; first by [].
exact: (@setW_direction_and_weight_blind rat 3%N w_directed w_reweighted
          (erefl true) (erefl true) same).
Defined.

Lemma setW_idempotent_witness :
  has_shape 3 3 w_directed /\
  exists2 W : mat int,
    setW w_directed = Ok W &
    setW (map2d (fun z : int => z%:~R : rat) W) = Ok W.
Proof.
split; first by [].
exact: (@setW_idempotent rat 3%N w_directed (erefl true)).
Defined.

(** ** The module-level helpers on arbitrary arrays *)

Section SymmetryTest.

Variable R : realFieldType.

(** Two integers whose size stays below [10^5] are close, with the default
    tolerances, only when they are equal. *)
Lemma isclose_small (x y : int) :
  `|y| < 10 ^+ 5 ->
  isclose (rtol_default R) (tol_default R) x y = (x == y).
Proof.
move=> hy; rewrite /isclose /rtol_default /tol_default.
have hP : (`|y|%:~R : R) + 1 <= 10%:R ^+ 5.
  have : `|y| + 1 <= 10 ^+ 5 :> int by rewrite lezD1.
  by rewrite -(ler_int R) rmorphD rmorphXn /= => h; rewrite (le_trans _ h).
have P0 : 0 < 10%:R ^+ 5 :> R by rewrite exprn_gt0 // ltr0n.
have t5 : (10%:R ^+ 16)^-1 < (10%:R ^+ 5)^-1 :> R by lra.
have t0 : 0 < (10%:R ^+ 16)^-1 :> R by lra.
have hq : (10%:R ^+ 5)^-1 * `|y|%:~R <= 1 - (10%:R ^+ 5)^-1 :> R.
  have -> : 1 - (10%:R ^+ 5)^-1 = (10%:R ^+ 5)^-1 * (10%:R ^+ 5 - 1) :> R.
    by rewrite mulrBr mulVf ?mulr1 // gt_eqF.
  by rewrite ler_wpM2l ?invr_ge0 ?(ltW P0) // lerBrDr.
have y0 : 0 <= (`|y|%:~R : R) by rewrite ler0z.
case: (x =P y) => [->|/eqP ne].
  rewrite subrr normr0 /=.
  by rewrite addr_ge0 ?(ltW t0) // mulr_ge0 // invr_ge0 (ltW P0).
apply/negbTE; rewrite -ltNge.
have : 1 <= `|x - y|%:~R :> R.
  by rewrite (ler_int R 1) -gtz0_ge1 normr_gt0 subr_eq0.
move: hq t5 t0; move: (`|x - y|%:~R) => d.
move: ((_ ^+ 16)^-1) => t; move: ((_ ^+ 5)^-1) => q; move: (q * _) => p.
by move=> *; lra.
Qed.

(** On a square integer array whose entries stay below [10^5] in size,
    [check_symmetric] with its default tolerance is exact: it answers
    whether the array equals its transpose. *)
Theorem check_symmetric_exact n (a : mat int) :
  has_shape n n a ->
  (forall i j, (i < n)%N -> (j < n)%N -> `|get 0 a i j| < 10 ^+ 5) ->
  check_symmetric a (tol_default R) = Ok (transpose 0 a == a).
Proof.
move=> ha small; rewrite /check_symmetric /allclose.
have hT : has_shape n n (transpose 0 a).
  by rewrite (transpose_square 0 ha); apply: has_shape_mkmat.
have gT i j : (i < n)%N -> (j < n)%N ->
    get 0 (transpose 0 a) i j = get 0 a j i.
  by move=> im jn; rewrite (transpose_square 0 ha) get_mkmat.
rewrite (broadcast2_same _ _ _ ha hT) /=; congr Ok.
apply/all_mkmat/eqP => [h|e i j im jn].
  apply: (shape_eq (d := 0) hT ha) => i j im jn.
  by have := h j i jn im; rewrite !gT // isclose_small ?small // => /eqP.
by rewrite gT // isclose_small ?small // -[in X in X == _]e gT.
Qed.

End SymmetryTest.

Section SymmetryTestSharp.

Variable R : realFieldType.

(** Beyond that size the test is no longer exact: with the relative
    tolerance [1e-05] of [np.allclose], two mirrored entries [y + 1] and
    [y] pass for every [y] from [10^5] on, and the array is reported
    symmetric although it differs from its transpose. *)
Theorem check_symmetric_large_entries (y : int) :
  10 ^+ 5 <= y ->
  check_symmetric [:: [:: 0; y + 1]; [:: y; 0]] (tol_default R) = Ok true /\
  transpose 0 [:: [:: 0; y + 1]; [:: y; 0]] <> [:: [:: 0; y + 1]; [:: y; 0]].
Proof.
move=> hy; split; last first.
  rewrite /transpose /mkmat /= /get /= => -[] /eqP.
  by rewrite -[X in X == _]addr0 (inj_eq (addrI y)) eq_sym oner_eq0.
have y0 : 0 <= y by rewrite (le_trans _ hy) // exprn_ge0.
have P0 : 0 < 10%:R ^+ 5 :> R by rewrite exprn_gt0 // ltr0n.
have hP : 10%:R ^+ 5 <= (y%:~R : R).
  by move: hy; rewrite -(ler_int R) rmorphXn.
have t0 : 0 < (10%:R ^+ 16)^-1 :> R by lra.
have h1 : 1 <= (10%:R ^+ 5)^-1 * y%:~R :> R.
  have /mulVf {1}<- : 10%:R ^+ 5 != 0 :> R by rewrite gt_eqF.
  by rewrite ler_wpM2l // invr_ge0 ltW.
have c1 : isclose (rtol_default R) (tol_default R) (y + 1) y.
  rewrite /isclose /rtol_default /tol_default addrAC subrr add0r normr1.
  rewrite (ger0_norm y0) /=.
  by move: h1 t0; move: ((_ ^+ 16)^-1) (_ * _) => t p *; lra.
have c2 : isclose (rtol_default R) (tol_default R) y (y + 1).
  rewrite /isclose /rtol_default /tol_default opprD addrA subrr sub0r.
  rewrite normrN normr1 ger0_norm ?addr_ge0 // rmorphD /= mulrDr.
  have : 0 <= (10%:R ^+ 5)^-1 * 1 :> R by rewrite mulr1 invr_ge0 ltW.
  move: h1 t0; move: ((_ ^+ 16)^-1) (_ * y%:~R) (_ * 1) => t p q *.
  by rewrite (_ : 1%:~R = 1) //; lra.
have c0 : isclose (rtol_default R) (tol_default R) 0 0.
  rewrite /isclose subrr normr0 mulr0 addr0 /tol_default.
  by rewrite (_ : 0%:~R = 0) // ltW.
rewrite /check_symmetric /allclose.
rewrite (@broadcast2_same _ _ _ 0 0 _ 2 2) //=; congr Ok.
by rewrite /transpose /mkmat /get /= c0 c1 c2.
Qed.

End SymmetryTestSharp.

Section MakeSymmetric.

Variable T : nzRingType.

(** [make_symmetric] on a square array keeps one strict triangle (the
    lower one with [copy_lower], the upper one otherwise), mirrors it, and
    drops the diagonal and the other triangle: the result is symmetric
    with a zero diagonal. *)
Theorem make_symmetric_mirror n (a : mat T) (copy_lower : bool) :
  has_shape n n a ->
  exists2 s : mat T,
    make_symmetric a copy_lower = Ok s &
    [/\ has_shape n n s, transpose 0 s = s,
        forall i, get 0 s i i = 0 &
        forall i j, (i < n)%N -> (j < n)%N ->
          (if copy_lower then (j < i)%N else (i < j)%N) ->
          get 0 s i j = get 0 a i j /\ get 0 s j i = get 0 a i j].
Proof.
move=> ha; rewrite (make_symmetric_square _ ha).
exists (mkmat n n (mirrored copy_lower a)) => //.
have hs := has_shape_mkmat n n (mirrored copy_lower a).
have sym i j : mirrored copy_lower a i j = mirrored copy_lower a j i.
  by rewrite /mirrored; case: (copy_lower); rewrite addrC.
split=> //.
- rewrite (transpose_square 0 hs); apply: mkmat_ext => i j im jn.
  by rewrite get_mkmat.
- move=> i; rewrite get_mkmat_default /mirrored ltnn.
  by case: ifP => // _; case: (copy_lower); rewrite addr0.
move=> i j im jn lt; rewrite !get_mkmat // -sym /mirrored.
have nlt : (if copy_lower then (i < j)%N else (j < i)%N) = false.
  by case: (copy_lower) lt => lt; rewrite ltnNge (ltnW lt).
by case: (copy_lower) lt nlt => -> ->; rewrite ?add0r ?addr0.
Qed.

End MakeSymmetric.

Section MaskShapes.

Variable R : realFieldType.
Variable T : nzRingType.

Lemma has_shape_set_at m n (a : mat T) i j v :
  has_shape m n a -> (i < m)%N -> (j < n)%N -> has_shape m n (set_at a i j v).
Proof.
by move=> ha im jn; rewrite (set_at_mkmat 0 _ ha) //; apply: has_shape_mkmat.
Qed.

(** An assignment through index arrays stops at the first position
    outside the array. *)
Lemma put_idx_out m n (a : mat T) idx (g : nat * nat -> T) :
  has_shape m n a -> ~~ all (fun p => (p.1 < m)%N && (p.2 < n)%N) idx ->
  put_idx a idx [seq g p | p <- idx] = Raise IndexError.
Proof.
elim: idx a => [|[i j] idx ih] a ha //=.
rewrite (nrows_shape ha); case: (ltnP i m) => im /=; last by [].
have m0 : (0 < m)%N by case: (m) im.
rewrite (ncols_shape ha) //; case: (ltnP j n) => jn //= out.
by apply: ih => //; apply: has_shape_set_at.
Qed.

(** [mask] on an array of any shape: when every zero position of [_W]
    lies inside [a], those entries of [a] are set to zero and the others
    are kept; when a zero position of [_W] lies outside [a], the call
    raises IndexError. *)
Theorem mask_any_shape (self : MemristiveReservoir R) m n m' n' (a : mat T) :
  has_shape m n (_W self) -> has_shape m' n' a ->
  ((forall i j, (i < m)%N -> (j < n)%N -> get 0 (_W self) i j = 0 ->
      (i < m')%N /\ (j < n')%N) ->
   mask self a =
   Ok (mkmat m' n' (fun i j =>
         if [&& (i < m)%N, (j < n)%N & get 0 (_W self) i j == 0] then 0
         else get 0 a i j))) /\
  (forall i j, (i < m)%N -> (j < n)%N -> get 0 (_W self) i j = 0 ->
     ~~ ((i < m')%N && (j < n')%N) ->
   mask self a = Raise IndexError).
Proof.
move=> hW ha; rewrite /mask set_idx_scalar.
have hb : has_shape m n (map2d (fun x : int => x == 0) (_W self)).
  exact: has_shape_map2d.
have wh i j : ((i, j) \in where_ (map2d (fun x : int => x == 0) (_W self))) =
              [&& (i < m)%N, (j < n)%N & get 0 (_W self) i j == 0].
  rewrite mem_where (nrows_shape hb); case: (ltnP i m) => //= im.
  have m0 : (0 < m)%N by case: (m) im.
  rewrite (ncols_shape hb) //; case: (ltnP j n) => //= jn.
  by rewrite (get_map2d 0 _ _ hW).
split=> [inside|i j im jn w0 out].
  rewrite (put_idx_map 0 _ ha).
    apply/allP => -[i j]; rewrite wh => /and3P[im jn /eqP w0] /=.
    by apply/andP; apply: inside.
  by congr Ok; apply: mkmat_ext => i j _ _; rewrite wh.
apply: (put_idx_out _ ha); apply/allPn; exists (i, j) => //.
by rewrite wh im jn w0 eqxx.
Qed.

(** Masking twice is masking once. *)
Theorem mask_idempotent (self : MemristiveReservoir R) m n (a : mat T) :
  has_shape m n (_W self) -> has_shape m n a ->
  exists2 c : mat T, mask self a = Ok c & mask self c = Ok c.
Proof.
move=> hW ha; rewrite (mask_shape hW ha).
exists (mkmat m n (masked_contents (_W self) a)) => //.
rewrite (mask_shape hW (has_shape_mkmat _ _ _)); congr Ok.
apply: mkmat_ext => i j im jn.
rewrite {1}/masked_contents get_mkmat //; case: ifP => // w0.
by rewrite /masked_contents w0.
Qed.

End MaskShapes.

Lemma check_symmetric_exact_witness :
  (has_shape 3 3 (_W reservoir3) /\
   forall i j, (i < 3)%N -> (j < 3)%N ->
     `|get 0 (_W reservoir3) i j| < 10 ^+ 5) /\
  check_symmetric (_W reservoir3) (tol_default rat) =
  Ok (transpose 0 (_W reservoir3) == _W reservoir3).
Proof.
have b (x : int) : `|x| <= 1 -> `|x| < 10 ^+ 5.
  by move=> /le_lt_trans-> //; rewrite exprn_egt1.
have small i j : (i < 3)%N -> (j < 3)%N ->
    `|get 0 (_W reservoir3) i j| < 10 ^+ 5.
  by move=> im jn; apply: b; move: i j im jn => [|[|[|i]]] // [|[|[|j]]].
split; first by [].
exact: (@check_symmetric_exact rat 3%N (_W reservoir3) (erefl true) small).
Defined.

Lemma check_symmetric_large_entries_witness :
  10 ^+ 5 <= (10 ^+ 5 : int) /\
  (check_symmetric [:: [:: 0; 10 ^+ 5 + 1]; [:: 10 ^+ 5; 0]]
     (tol_default rat) = Ok true /\
   transpose 0 [:: [:: 0; 10 ^+ 5 + 1]; [:: 10 ^+ 5; 0]] <>
   [:: [:: 0; 10 ^+ 5 + 1 : int]; [:: 10 ^+ 5; 0]]).
Proof.
split; first exact: lexx.
exact: (@check_symmetric_large_entries rat (10 ^+ 5) (lexx _)).
Defined.

Lemma make_symmetric_mirror_witness :
  has_shape 3 3 sample3 /\
  exists2 s : mat rat,
    make_symmetric sample3 true = Ok s &
    [/\ has_shape 3 3 s, transpose 0 s = s,
        forall i, get 0 s i i = 0 &
        forall i j, (i < 3)%N -> (j < 3)%N -> (j < i)%N ->
          get 0 s i j = get 0 sample3 i j /\
          get 0 s j i = get 0 sample3 i j].
Proof.
split; first by [].
exact: (@make_symmetric_mirror _ 3%N sample3 true (erefl true)).
Defined.

Lemma mask_any_shape_witness :
  (has_shape 3 3 (_W reservoir3) /\ has_shape 2 2 a_small) /\
  ((forall i j, (i < 3)%N -> (j < 3)%N -> get 0 (_W reservoir3) i j = 0 ->
      (i < 2)%N /\ (j < 2)%N) ->
   mask reservoir3 a_small =
   Ok (mkmat 2 2 (fun i j =>
         if [&& (i < 3)%N, (j < 3)%N & get 0 (_W reservoir3) i j == 0]
         then 0 else get 0 a_small i j))) /\
  (forall i j, (i < 3)%N -> (j < 3)%N -> get 0 (_W reservoir3) i j = 0 ->
     ~~ ((i < 2)%N && (j < 2)%N) ->
   mask reservoir3 a_small = Raise IndexError).
Proof.
split; first by [].
exact: (@mask_any_shape rat _ reservoir3 3%N 3%N 2%N 2%N a_small
          (erefl true) (erefl true)).
Defined.

Lemma mask_idempotent_witness :
  (has_shape 3 3 (_W reservoir3) /\ has_shape 3 3 sample3) /\
  exists2 c : mat rat,
    mask reservoir3 sample3 = Ok c & mask reservoir3 c = Ok c.
Proof.
split; first by [].
exact: (@mask_idempotent rat _ reservoir3 3%N 3%N sample3
          (erefl true) (erefl true)).
Defined.

(** ** Property fields, switch counts and conductances *)

Section PropertyFields.

Variable R : realFieldType.


End PropertyFields.

Section MSSFields.

Variable R : archiRealFieldType.
Implicit Types (self : MSSNetwork R) (value : mat R).



(** A value that lies between 0 and [NMSS] is stored as it is. *)
Lemma Nb_stored_id (v nmss : R) : 0 <= v <= nmss -> Nb_stored v nmss = v.
Proof.
by case/andP=> v0 vn; rewrite /Nb_stored (ltNge v) v0 /= (ltNge nmss) vn.
Qed.

Lemma Nb_stored_range (v nmss : R) :
  0 <= nmss -> 0 <= Nb_stored v nmss <= nmss.
Proof.
move=> n0; rewrite /Nb_stored; case: (ltP v 0) => v0.
  by rewrite ltxx n0 lexx.
by case: (ltP nmss v) => vn; rewrite ?n0 ?lexx // v0 vn.
Qed.

(** When no entry of [NMSS] is negative, assigning to [Nb] leaves a switch
    count between 0 and [NMSS] in every entry, whatever the value
    assigned, and assigning the stored array again changes nothing. *)
Theorem set_Nb_range self m n value :
  has_shape m n (NMSS self) -> has_shape m n value ->
  (forall i j, (i < m)%N -> (j < n)%N -> 0 <= get 0 (NMSS self) i j) ->
  exists2 self' : MSSNetwork R,
    MSSNetwork_set_Nb self value = Ok self' &
    [/\ NMSS self' = NMSS self,
        forall i j, (i < m)%N -> (j < n)%N ->
          0 <= get 0 (MSSNetwork_Nb self') i j <= get 0 (NMSS self) i j &
        MSSNetwork_set_Nb self' (MSSNetwork_Nb self') = Ok self'].
Proof.
move=> hN hv n0; rewrite (set_Nb_shape hN hv).
set nb := mkmat m n _; exists (with_Nb self nb) => //.
have hnb : has_shape m n nb by apply: has_shape_mkmat.
split=> // [i j im jn|].
  by rewrite /MSSNetwork_Nb /= get_mkmat // Nb_stored_range // n0.
rewrite (@set_Nb_shape _ (with_Nb self nb) m n) //.
congr (Ok _); rewrite /with_Nb /=; congr mkMSSNetwork.
apply: (shape_eq (d := 0) (has_shape_mkmat _ _ _) hnb) => i j im jn.
rewrite get_mkmat // /MSSNetwork_Nb /= Nb_stored_id //.
by rewrite get_mkmat // Nb_stored_range // n0.
Qed.

(** Assigning to [Nb] does not refresh the stored conductance [_G]: the
    property [G] follows the new switch counts, while [solveV_I], which
    reads [_G], answers as before the assignment. *)
Theorem set_Nb_keeps_stored_G self value (self' : MSSNetwork R) :
  MSSNetwork_set_Nb self value = Ok self' ->
  [/\ _G self' = _G self,
      forall V_E V_GR, solveV_I self' V_E V_GR None =
                       solveV_I self V_E V_GR None &
      MSSNetwork_G self' =
      conductance (MSSNetwork_Nb self') (_Ga self) (_Gb self) (NMSS self)].
Proof.
rewrite /MSSNetwork_set_Nb.
case: (take_idx _ _ _) => //= v1; case: (set_idx _ _ _) => //= nb1.
case: (greater _ _) => //= ov; case: (take_idx _ _ _) => //= v2.
by case: (set_idx _ _ _) => //= nb2 [<-].
Qed.

(** With switch counts between 0 and [NMSS] and [Ga <= Gb], the
    conductance [Nb * (Gb - Ga) + NMSS * Ga] lies between [NMSS * Ga] (no
    switch in state b) and [NMSS * Gb] (every switch in state b). *)
Theorem conductance_between n (nb ga gb nmss : mat R) :
  [/\ has_shape n n nb, has_shape n n ga, has_shape n n gb &
      has_shape n n nmss] ->
  (forall i j, (i < n)%N -> (j < n)%N ->
     0 <= get 0 nb i j <= get 0 nmss i j /\ get 0 ga i j <= get 0 gb i j) ->
  exists2 G : mat R,
    conductance nb ga gb nmss = Ok G &
    forall i j, (i < n)%N -> (j < n)%N ->
      get 0 nmss i j * get 0 ga i j <= get 0 G i j <=
      get 0 nmss i j * get 0 gb i j.
Proof.
move=> [hnb hga hgb hn] rng; rewrite (conductance_shape hnb hga hgb hn).
eexists; first by [].
move=> i j im jn; rewrite get_mkmat //.
have [/andP[b0 bn] ab] := rng i j im jn.
have d0 : 0 <= get 0 gb i j - get 0 ga i j by rewrite subr_ge0.
apply/andP; split; first by rewrite lerDr mulr_ge0.
have -> : get 0 nmss i j * get 0 gb i j =
          get 0 nmss i j * (get 0 gb i j - get 0 ga i j) +
          get 0 nmss i j * get 0 ga i j.
  by rewrite -mulrDr subrK.
by rewrite lerD2r ler_wpM2r.
Qed.

End MSSFields.



Lemma set_Nb_range_witness :
  (has_shape 3 3 (NMSS mss3) /\ has_shape 3 3 value3 /\
   forall i j, (i < 3)%N -> (j < 3)%N -> 0 <= get 0 (NMSS mss3) i j) /\
  exists2 self' : MSSNetwork rat,
    MSSNetwork_set_Nb mss3 value3 = Ok self' &
    [/\ NMSS self' = NMSS mss3,
        forall i j, (i < 3)%N -> (j < 3)%N ->
          0 <= get 0 (MSSNetwork_Nb self') i j <= get 0 (NMSS mss3) i j &
        MSSNetwork_set_Nb self' (MSSNetwork_Nb self') = Ok self'].
Proof.
have n0 i j : (i < 3)%N -> (j < 3)%N -> 0 <= get 0 (NMSS mss3) i j.
  by rewrite NMSS_mss3; case: i => [|[|[|i]]] //; case: j => [|[|[|j]]].
split; first by [].
exact: (@set_Nb_range rat mss3 3%N 3%N value3 (erefl true) (erefl true) n0).
Defined.

Lemma set_Nb_keeps_stored_G_witness :
  let self' :=
    with_Nb mss3
      (mkmat 3 3 (fun i j =>
         Nb_stored (get 0 value3 i j) (get 0 (NMSS mss3) i j))) in
  MSSNetwork_set_Nb mss3 value3 = Ok self' /\
  [/\ _G self' = _G mss3,
      forall V_E V_GR, solveV_I self' V_E V_GR None =
                       solveV_I mss3 V_E V_GR None &
      MSSNetwork_G self' =
      conductance (MSSNetwork_Nb self') (_Ga mss3) (_Gb mss3) (NMSS mss3)].
Proof.
have e := @set_Nb_shape rat mss3 3%N 3%N value3 (erefl true) (erefl true).
split; first exact: e.
exact: (@set_Nb_keeps_stored_G rat mss3 value3 _ e).
Defined.

Lemma conductance_between_witness :
  ([/\ has_shape 2 2 nb2, has_shape 2 2 ga2, has_shape 2 2 gb2 &
       has_shape 2 2 nmss2] /\
   forall i j, (i < 2)%N -> (j < 2)%N ->
     0 <= get 0 nb2 i j <= get 0 nmss2 i j /\
     get 0 ga2 i j <= get 0 gb2 i j) /\
  exists2 G : mat rat,
    conductance nb2 ga2 gb2 nmss2 = Ok G &
    forall i j, (i < 2)%N -> (j < 2)%N ->
      get 0 nmss2 i j * get 0 ga2 i j <= get 0 G i j <=
      get 0 nmss2 i j * get 0 gb2 i j.
Proof.
have rng i j : (i < 2)%N -> (j < 2)%N ->
    0 <= get 0 nb2 i j <= get 0 nmss2 i j /\ get 0 ga2 i j <= get 0 gb2 i j.
  by case: i => [|[|i]] //; case: j => [|[|j]].
have sh : [/\ has_shape 2 2 nb2, has_shape 2 2 ga2, has_shape 2 2 gb2 &
              has_shape 2 2 nmss2] by [].
split; first by [].
exact: (@conductance_between rat 2%N nb2 ga2 gb2 nmss2 sh rng).
Defined.

(** ** The Kirchhoff solver: failures and linearity *)

Section SolverFailures.

Variable R : realFieldType.
Variable self : MemristiveReservoir R.
Variables (G0 : mat R) (V_E : seq R) (V_GR : option (seq R)).

Let n := _n_nodes self.
Let k := size (_I self).

Hypothesis hG : has_shape n n G0.

Let A_II : 'M[R]_k :=
  \matrix_(p, q) admittance G0 (nth 0%N (_I self) p) (nth 0%N (_I self) q).

Lemma solveV_I_inv :
  all (fun i => i < n)%N (_I self) ->
  solveV_I self V_E V_GR (Some G0) =
  (A_II_inv <-- inv (mkmat k k (fun p q =>
                  admittance G0 (nth 0%N (_I self) p)
                                (nth 0%N (_I self) q))) ;;
   G_IE <-- take_ix G0 (_I self) (_E self) ;;
   H_IE <-- dot_mv G_IE V_E ;;
   G_IGR <-- take_ix G0 (_I self) (_GR self) ;;
   H_IGR <-- dot_mv G_IGR
               (if V_GR is Some v then v
                else nseq (_n_grounded_nodes self) 0) ;;
   H_I <-- broadcast1 0 0 +%R H_IE H_IGR ;;
   dot_mv A_II_inv H_I).
Proof.
move=> hI; rewrite /solveV_I -/n (admittance_matrix hG) /=.
have hA := has_shape_mkmat n n (admittance G0).
rewrite (take_ix_shape hA hI hI) /= -/k.
congr (bind (inv _) _); apply: mkmat_ext => p q pk qk.
by rewrite get_mkmat // (allP hI _ (mem_nth _ _)).
Qed.

Lemma mx_of_A_II :
  mx_of_mat k k (mkmat k k (fun p q =>
    admittance G0 (nth 0%N (_I self) p) (nth 0%N (_I self) q))) = A_II.
Proof. by apply/matrixP => p q; rewrite !mxE get_mkmat. Qed.


(** An internal node without any conductance to another node makes the
    system singular: [solveV_I] raises LinAlgError. *)
Theorem solveV_I_isolated_internal_node (p : nat) :
  all (fun i => i < n)%N (_I self) ->
  (p < k)%N ->
  (forall j, (j < n)%N -> get 0 G0 (nth 0%N (_I self) p) j = 0) ->
  solveV_I self V_E V_GR (Some G0) = Raise LinAlgError.
Proof.
move=> hI pk iso; rewrite (solveV_I_inv hI).
rewrite (inv_singular (has_shape_mkmat k k _)) // mx_of_A_II.
apply/negP => uA.
have ip : (nth 0%N (_I self) p < n)%N by exact: (allP hI _ (mem_nth _ _)).
have row0 q : A_II (Ordinal pk) q = 0.
  have iq : (nth 0%N (_I self) q < n)%N.
    by apply: (allP hI); apply: mem_nth.
  rewrite mxE /= /admittance iso // subr0.
  case: eqP => // _; rewrite big_seq big1 // => x xin.
  have /(nthP 0)[j js <-] := xin.
  move: js; rewrite (size_row hG ip) => jn.
  exact: iso.
have /matrixP/(_ (Ordinal pk) (Ordinal pk)) := mulmxV uA.
rewrite !mxE eqxx big1.
  by move=> q _; rewrite row0 mul0r.
by move/eqP; rewrite eq_sym oner_eq0.
Qed.

(** A node index outside the conductance matrix among the internal nodes
    is an IndexError. *)
Theorem solveV_I_index_out_of_range :
  ~~ all (fun i => i < n)%N (_I self) ->
  solveV_I self V_E V_GR (Some G0) = Raise IndexError.
Proof.
move=> out; rewrite /solveV_I -/n (admittance_matrix hG) /=.
have hA := has_shape_mkmat n n (admittance G0).
rewrite /take_ix (nrows_shape hA) (negbTE out) /=.
by [].
Qed.

End SolverFailures.

Section SolverLinear.

Variable R : realFieldType.
Variable self : MemristiveReservoir R.
Variable G0 : mat R.

Let n := _n_nodes self.
Let k := size (_I self).

Hypothesis hG : has_shape n n G0.
Hypothesis hI : all (fun i => i < n)%N (_I self).
Hypothesis hE : all (fun i => i < n)%N (_E self).
Hypothesis hGR : all (fun i => i < n)%N (_GR self).
Hypothesis uA :
  (\matrix_(p < k, q < k)
     admittance G0 (nth 0%N (_I self) p) (nth 0%N (_I self) q)) \in unitmx.

(** The combination [c * x + y] of two voltage arrays, entry by entry. *)
Let comb (c : R) (x y : seq R) : seq R := [seq c * u.1 + u.2 | u <- zip x y].

Lemma nth_comb c x y i :
  size x = size y -> (i < size x)%N ->
  nth 0 (comb c x y) i = c * nth 0 x i + nth 0 y i.
Proof.
move=> sxy ix; rewrite /comb (nth_map (0, 0)) ?size_zip -?sxy ?minnn //.
by rewrite nth_zip.
Qed.

Lemma injected_comb c (V_E V_E' V_GR V_GR' : seq R) q :
  size V_E = size (_E self) -> size V_E' = size (_E self) ->
  size V_GR = size (_GR self) -> size V_GR' = size (_GR self) ->
  injected self G0 (comb c V_E V_E') (comb c V_GR V_GR') q =
  c * injected self G0 V_E V_GR q + injected self G0 V_E' V_GR' q.
Proof.
move=> s1 s2 s3 s4; rewrite /injected mulrDr !mulr_sumr addrACA -!big_split /=.
congr (_ + _); apply: eq_big_nat => e /andP[_ ee].
  by rewrite nth_comb ?s1 ?s2 // mulrDr mulrCA.
by rewrite nth_comb ?s3 ?s4 // mulrDr mulrCA.
Qed.

(** [solveV_I] is linear in the applied voltages: for the combination
    [c * V + V'] of two sets of external and grounded voltages it returns
    the same combination of the two solutions (superposition). *)
Theorem solveV_I_linear c (V_E V_E' V_GR V_GR' : seq R) :
  size V_E = size (_E self) -> size V_E' = size (_E self) ->
  size V_GR = size (_GR self) -> size V_GR' = size (_GR self) ->
  exists v v' u : seq R,
    [/\ solveV_I self V_E (Some V_GR) (Some G0) = Ok v,
        solveV_I self V_E' (Some V_GR') (Some G0) = Ok v',
        solveV_I self [seq c * x.1 + x.2 | x <- zip V_E V_E']
          (Some [seq c * x.1 + x.2 | x <- zip V_GR V_GR']) (Some G0) = Ok u &
        [/\ size v = k, size v' = k, size u = k &
            forall p, (p < k)%N -> nth 0 u p = c * nth 0 v p + nth 0 v' p]].
Proof.
move=> s1 s2 s3 s4.
have sc1 : size (comb c V_E V_E') = size (_E self).
  by rewrite /comb size_map size_zip s1 s2 minnn.
have sc2 : size (comb c V_GR V_GR') = size (_GR self).
  by rewrite /comb size_map size_zip s3 s4 minnn.
rewrite -/(comb c V_E V_E') -/(comb c V_GR V_GR').
rewrite !(solveV_I_unit hG hI hE hGR) //.
do 3![eexists]; split; [by [] | by [] | by [] |].
rewrite !size_mkseq; split=> // p pk; rewrite !nth_mkseq //.
rewrite mulr_sumr -big_split /=; apply: eq_big_nat => q _.
by rewrite injected_comb // mulrDr mulrCA.
Qed.

(** With every external and grounded node at zero volts, every internal
    node is at zero volts. *)
Theorem solveV_I_zero_input :
  _n_grounded_nodes self = size (_GR self) ->
  solveV_I self (nseq (size (_E self)) 0) None (Some G0) = Ok (nseq k 0).
Proof.
move=> hn; rewrite (@solveV_I_defaults _ _ _ _ _ G0) // hn.
rewrite (solveV_I_unit hG hI hE hGR) ?size_nseq //; congr Ok.
apply: (@eq_from_nth _ 0); rewrite size_mkseq ?size_nseq // => p pk.
rewrite nth_mkseq // nth_nseq pk big1 // => q _.
rewrite /injected !big1 ?addr0 ?mulr0 // => e _.
  by rewrite nth_nseq; case: ifP; rewrite mulr0.
by rewrite nth_nseq; case: ifP; rewrite mulr0.
Qed.

End SolverLinear.

Section SolverNoConductance.

Variable R : realFieldType.

(** A reservoir of the base class has no conductance after construction:
    until one is assigned, [solveV_I] called without [G] raises (numpy's
    AxisError, a ValueError, from [np.sum(None, axis=1)]). *)
Theorem solveV_I_before_G (w : mat R) (i_nodes e_nodes gr_nodes : seq nat)
    (self : MemristiveReservoir R) V_E V_GR :
  MemristiveReservoir_init w i_nodes e_nodes gr_nodes = Ok self ->
  solveV_I self V_E V_GR None = Raise ValueError.
Proof.
rewrite /MemristiveReservoir_init; case: (setW w) => //= W [<-].
by rewrite /solveV_I /=; case: V_GR.
Qed.

End SolverNoConductance.


Lemma solveV_I_isolated_internal_node_witness :
  (has_shape 3 3 G_isolated3 /\
   all (fun i => i < 3)%N (_I isolated3) /\
   (0 < size (_I isolated3))%N /\
   forall j, (j < 3)%N ->
     get 0 G_isolated3 (nth 0%N (_I isolated3) 0) j = 0) /\
  solveV_I isolated3 [:: 1] None (Some G_isolated3) = Raise LinAlgError.
Proof.
have iso j : (j < 3)%N ->
    get 0 G_isolated3 (nth 0%N (_I isolated3) 0) j = 0.
  by case: j => [|[|[|j]]].
split; first by [].
exact: (@solveV_I_isolated_internal_node rat isolated3 G_isolated3 [:: 1]
          None (erefl true) 0%N (erefl true) (erefl true) iso).
Defined.

Lemma solveV_I_index_out_of_range_witness :
  (has_shape 3 3 G_triangle /\
   ~~ all (fun i => i < 3)%N (_I misindexed3)) /\
  solveV_I misindexed3 [:: 1] None (Some G_triangle) = Raise IndexError.
Proof.
split; first by [].
exact: (@solveV_I_index_out_of_range rat misindexed3 G_triangle [:: 1] None
          (erefl true) (erefl true)).
Defined.

Lemma triangle_unit :
  (\matrix_(p < 1, q < 1)
     admittance G_triangle (nth 0%N (_I (triangle rat)) p)
                           (nth 0%N (_I (triangle rat)) q)) \in unitmx.
Proof.
rewrite unitmxE det_mx11 mxE /= /admittance /= !big_cons big_nil.
by rewrite unitfE.
Qed.

Lemma solveV_I_linear_witness :
  (has_shape 3 3 G_triangle /\
   [/\ all (fun i => i < 3)%N (_I (triangle rat)),
       all (fun i => i < 3)%N (_E (triangle rat)) &
       all (fun i => i < 3)%N (_GR (triangle rat))] /\
   size [:: 1 : rat] = size (_E (triangle rat)) /\
   size [:: 0 : rat] = size (_GR (triangle rat))) /\
  exists v v' u : seq rat,
    [/\ solveV_I (triangle rat) [:: 1] (Some [:: 0]) (Some G_triangle) = Ok v,
        solveV_I (triangle rat) [:: 1] (Some [:: 0]) (Some G_triangle) =
          Ok v',
        solveV_I (triangle rat)
          [seq 2%:R * x.1 + x.2 | x <- zip [:: 1 : rat] [:: 1]]
          (Some [seq 2%:R * x.1 + x.2 | x <- zip [:: 0 : rat] [:: 0]])
          (Some G_triangle) = Ok u &
        [/\ size v = 1%N, size v' = 1%N, size u = 1%N &
            forall p, (p < 1)%N ->
              nth 0 u p = 2%:R * nth 0 v p + nth 0 v' p]].
Proof.
split; first by [].
exact: (@solveV_I_linear rat (triangle rat) G_triangle
          (erefl true) (erefl true) (erefl true) (erefl true) triangle_unit
          2%:R [:: 1] [:: 1] [:: 0] [:: 0]
          (erefl _) (erefl _) (erefl _) (erefl _)).
Defined.

Lemma solveV_I_zero_input_witness :
  (has_shape 3 3 G_triangle /\
   _n_grounded_nodes (triangle rat) = size (_GR (triangle rat))) /\
  solveV_I (triangle rat) (nseq (size (_E (triangle rat))) 0) None
    (Some G_triangle) = Ok (nseq (size (_I (triangle rat))) 0).
Proof.
split; first by [].
exact: (@solveV_I_zero_input rat (triangle rat) G_triangle
          (erefl true) (erefl true) (erefl true) (erefl true) triangle_unit
          (erefl _)).
Defined.

Lemma solveV_I_before_G_witness :
  let self :=
    mkMemristiveReservoir (mkmat 3 3 (undirected w_directed))
      [:: 0%N] [:: 1%N] [:: 2%N] 1 1 1 3 None in
  MemristiveReservoir_init w_directed [:: 0%N] [:: 1%N] [:: 2%N] = Ok self /\
  solveV_I self [:: 1] None None = Raise ValueError.
Proof.
have e := @init_square rat 3%N w_directed [:: 0%N] [:: 1%N] [:: 2%N]
            (erefl true).
split; first exact: e.
exact: (@solveV_I_before_G rat w_directed [:: 0%N] [:: 1%N] [:: 2%N] _
          [:: 1] None e).
Defined.

(** ** The voltages across the memristors *)

Section EdgeVoltages.

Variable R : realFieldType.

Lemma mem_zip_keys (nodes : seq nat) (voltage : seq R) x y :
  size nodes = size voltage -> (x, y) \in zip nodes voltage -> x \in nodes.
Proof.
by move=> sz /(map_f fst); rewrite -/(unzip1 _) unzip1_zip ?sz.
Qed.

(** The dictionary of [getV] on distinct keys. *)
Lemma nv_lookup_uniq (nodes : seq nat) (voltage : seq R) i :
  uniq nodes -> size nodes = size voltage -> i \in nodes ->
  nv_lookup (zip nodes voltage) i = Ok (nth 0 voltage (seq.index i nodes)).
Proof.
move=> un sz iin; rewrite /nv_lookup filter_rev.
suff -> : [seq p <- zip nodes voltage | p.1 == i] =
          [:: (i, nth 0 voltage (seq.index i nodes))] by [].
elim: nodes voltage un sz iin => [|a nodes ih] [|v voltage] //=.
case/andP=> an un [sz]; rewrite inE (eq_sym a i).
case: (i =P a) => [->|/eqP ne] /=.
  move=> _; congr (_ :: _).
  apply/eqP; rewrite -[_ == _]negbK -has_filter; apply/hasPn => -[x y] /=.
  by move/(mem_zip_keys sz) => xin; apply: contraNneq an => <-.
by move=> iin; apply: ih.
Qed.

Lemma nv_lookup_missing (nodes : seq nat) (voltage : seq R) i :
  size nodes = size voltage -> i \notin nodes ->
  nv_lookup (zip nodes voltage) i = Raise KeyError.
Proof.
move=> sz nin; rewrite /nv_lookup filter_rev.
suff -> : [seq p <- zip nodes voltage | p.1 == i] = [::] by [].
apply/eqP; rewrite -[_ == _]negbK -has_filter; apply/hasPn => -[x y] /=.
by move/(mem_zip_keys sz) => xin; apply: contraNneq nin => <-.
Qed.

Lemma nv_lookup_cases (nv : seq (nat * R)) k :
  (exists v, nv_lookup nv k = Ok v) \/ nv_lookup nv k = Raise KeyError.
Proof. by rewrite /nv_lookup; case: filter => [|p s]; [right | left; eexists]. Qed.

Variable self : MemristiveReservoir R.
Variables (V_I V_E : seq R) (V_GR : option (seq R)).

Let V_GR0 := if V_GR is Some v then v else nseq (_n_grounded_nodes self) 0.
Let nodes := _I self ++ _E self ++ _GR self.
Let voltage := V_I ++ V_E ++ V_GR0.
Let volt := node_voltage self V_I V_E V_GR0.
Let drop_ (i j : nat) : R := volt (minn i j) - volt (maxn i j).

(** The loop of [getV] over positions whose nodes all have a voltage. *)
Lemma getV_loop m n (V0 : mat R) idx :
  uniq nodes -> size nodes = size voltage ->
  has_shape m n V0 ->
  all (fun p => [&& (p.1 < m)%N, (p.2 < n)%N, p.1 \in nodes &
                    p.2 \in nodes]) idx ->
  foldl (getV_step (zip nodes voltage)) (Ok V0) idx =
  Ok (mkmat m n (fun i j =>
        if (i, j) \in idx then drop_ i j else get 0 V0 i j)).
Proof.
move=> un sz; elim: idx V0 => [|[i j] idx ih] V0 hV /=.
  by move=> _; rewrite (mkmat_get 0 hV).
case/andP=> /and4P[im jn iin jin] hidx.
rewrite !(nv_lookup_uniq un sz) //.
have -> : (if (i < j)%N
           then Ok (set_at V0 i j (nth 0 voltage (seq.index i nodes) -
                                   nth 0 voltage (seq.index j nodes)))
           else Ok (set_at V0 i j (nth 0 voltage (seq.index j nodes) -
                                   nth 0 voltage (seq.index i nodes)))) =
          Ok (set_at V0 i j (drop_ i j)).
  rewrite /drop_ /volt /node_voltage -/nodes -/voltage.
  by rewrite /minn /maxn; case: ltnP.
rewrite (ih _ (has_shape_set_at (drop_ i j) hV im jn) hidx).
congr Ok; apply: mkmat_ext => i' j' im' jn'.
rewrite in_cons (set_at_mkmat 0 _ hV) // get_mkmat // xpair_eqE.
by case: eqP => [->|_] //=; case: eqP => [->|_] //=; case: ifP.
Qed.

(** On a network of [n] nodes whose three index arrays list every node
    once, with one voltage per node, [getV] returns the matrix that
    holds, at every connection [(i, j)], the voltage of the node of lower
    index minus that of the node of higher index, and zero elsewhere: the
    entries [(i, j)] and [(j, i)] are equal. A network of a single node is
    a TypeError (the squeezed arrays are 0-d). *)
Theorem getV_voltage_drops n :
  has_shape n n (_W self) ->
  valid_partition n (_I self) (_E self) (_GR self) ->
  [/\ size V_I = size (_I self), size V_E = size (_E self) &
      size V_GR0 = size (_GR self)] ->
  getV self V_I V_E V_GR =
  if n == 1%N then Raise TypeError
  else Ok (mkmat n n (fun i j =>
             if get 0 (_W self) i j == 0 then 0
             else node_voltage self V_I V_E V_GR0 (minn i j) -
                  node_voltage self V_I V_E V_GR0 (maxn i j))).
Proof.
move=> hW vp [s1 s2 s3]; rewrite /getV -/V_GR0 -/nodes -/voltage.
have pn : perm_eq nodes (iota 0 n) by [].
have sn : size nodes = n by rewrite (perm_size pn) size_iota.
have sz : size nodes = size voltage.
  by rewrite /nodes /voltage !size_cat s1 s2 s3.
have un : uniq nodes by rewrite (perm_uniq pn) iota_uniq.
have inn i : (i \in nodes) = (i < n)%N by rewrite (perm_mem pn) mem_iota.
rewrite -sz sn orbb; case: eqP => // _.
have hb : has_shape n n (map2d (fun x : int => x != 0) (_W self)).
  exact: has_shape_map2d.
rewrite (nrows_shape hW) (ncols_square hW).
rewrite (getV_loop un sz (has_shape_mkmat n n _)) /=.
  apply/allP => -[i j]; rewrite mem_where (nrows_shape hb) (ncols_square hb).
  by case/and3P=> im jn _; rewrite /= !inn im jn.
rewrite (mask_shape hW (has_shape_mkmat n n _)); congr Ok.
apply: mkmat_ext => i j im jn; rewrite /masked_contents get_mkmat //.
case: eqP => // /eqP w0.
by rewrite mem_where (nrows_shape hb) (ncols_square hb) im jn
           (get_map2d 0 _ _ hW) // w0.
Qed.

Lemma getV_step_KeyError acc ij :
  acc = Raise KeyError \/ (exists V, acc = Ok V) ->
  getV_step (zip nodes voltage) acc ij = Raise KeyError \/
  (exists V, getV_step (zip nodes voltage) acc ij = Ok V).
Proof.
case=> [->|[V ->]]; first by left.
rewrite /getV_step /=; case: ij => i j.
rewrite /nv_lookup.
case: [seq p <- rev (zip nodes voltage) | p.1 == i] => [|pi si];
  case: [seq p <- rev (zip nodes voltage) | p.1 == j] => [|pj sj];
  by case: ifP => _ /=; (try by left); right; eexists.
Qed.

(** A connection one of whose endpoints is in none of the three index
    arrays makes [getV] raise KeyError. *)
Theorem getV_missing_node m n i j :
  has_shape m n (_W self) ->
  size nodes = size voltage -> size nodes != 1%N ->
  (i < m)%N -> (j < n)%N -> get 0 (_W self) i j != 0 ->
  (i \notin nodes) || (j \notin nodes) ->
  getV self V_I V_E V_GR = Raise KeyError.
Proof.
move=> hW sz s1 im jn w0 miss; rewrite /getV -/V_GR0 -/nodes -/voltage.
rewrite -sz orbb (negbTE s1).
have hb : has_shape m n (map2d (fun x : int => x != 0) (_W self)).
  exact: has_shape_map2d.
have m0 : (0 < m)%N by case: (m) im.
have ein : (i, j) \in where_ (map2d (fun x : int => x != 0) (_W self)).
  by rewrite mem_where (nrows_shape hb) (ncols_shape hb) // im jn
             (get_map2d 0 _ _ hW).
suff -> : foldl (getV_step (zip nodes voltage))
            (Ok (zeros R (nrows (_W self)) (ncols (_W self))))
            (where_ (map2d (fun x : int => x != 0) (_W self))) =
          Raise KeyError by [].
have: Ok (zeros R (nrows (_W self)) (ncols (_W self))) = Raise KeyError \/
      exists V, Ok (zeros R (nrows (_W self)) (ncols (_W self))) = Ok V.
  by right; eexists.
move: (Ok _) ein; elim: (where_ _) => [|p idx ih] acc //.
rewrite in_cons => /orP[/eqP<-|pin] hacc /=.
  have -> : getV_step (zip nodes voltage) acc (i, j) = Raise KeyError.
    case: hacc => [->|[V ->]] //=.
    case/orP: miss => [ni|nj].
      rewrite (nv_lookup_missing sz ni) /=.
      case: ifP => // _.
      by case: (nv_lookup_cases (zip nodes voltage) j) => [[v ->]|->].
    rewrite (nv_lookup_missing sz nj) /=.
    case: ifP => // _.
    by case: (nv_lookup_cases (zip nodes voltage) i) => [[v ->]|->].
  by apply: foldl_raise => b.
by apply: ih => //; apply: getV_step_KeyError.
Qed.

End EdgeVoltages.

Lemma getV_voltage_drops_witness :
  (has_shape 3 3 (_W (triangle rat)) /\
   valid_partition 3 (_I (triangle rat)) (_E (triangle rat))
     (_GR (triangle rat)) /\
   [/\ size [:: 2%:R : rat] = size (_I (triangle rat)),
       size [:: 1 : rat] = size (_E (triangle rat)) &
       size (nseq (_n_grounded_nodes (triangle rat)) (0 : rat)) =
       size (_GR (triangle rat))]) /\
  getV (triangle rat) [:: 2%:R] [:: 1] None =
  if 3%N == 1%N then Raise TypeError
  else Ok (mkmat 3 3 (fun i j =>
             if get 0 (_W (triangle rat)) i j == 0 then 0
             else node_voltage (triangle rat) [:: 2%:R] [:: 1]
                    (nseq (_n_grounded_nodes (triangle rat)) 0) (minn i j) -
                  node_voltage (triangle rat) [:: 2%:R] [:: 1]
                    (nseq (_n_grounded_nodes (triangle rat)) 0) (maxn i j))).
Proof.
split; first by [].
exact: (@getV_voltage_drops rat (triangle rat) [:: 2%:R] [:: 1] None 3%N
          (erefl true) (erefl true)
          (And3 (erefl _) (erefl _) (erefl _))).
Defined.

Lemma getV_missing_node_witness :
  (has_shape 3 3 (_W unlisted3) /\
   size (_I unlisted3 ++ _E unlisted3 ++ _GR unlisted3) =
   size ([:: 1 : rat] ++ [::] ++ [:: 0]) /\
   size (_I unlisted3 ++ _E unlisted3 ++ _GR unlisted3) != 1%N /\
   get 0 (_W unlisted3) 0 1 != 0 /\
   (0%N \notin _I unlisted3 ++ _E unlisted3 ++ _GR unlisted3) ||
   (1%N \notin _I unlisted3 ++ _E unlisted3 ++ _GR unlisted3)) /\
  getV unlisted3 [:: 1] [::] (Some [:: 0]) = Raise KeyError.
Proof.
split; first by [].
exact: (@getV_missing_node rat unlisted3 [:: 1] [::] (Some [:: 0])
          3%N 3%N 0%N 1%N (erefl true) (erefl _) (erefl true)
          (erefl true) (erefl true) (erefl true) (erefl true)).
Defined.
